(** * Skip-gram data preparation ([src/data_processing.py])

    A shallow embedding of the functions of [data_processing.py]:
    [create_lookup_tables], [subsample_words], [get_target],
    [get_batches] and [cosine_similarity], followed by the properties of
    the specification that concern them.

    Conventions of the embedding:
    - a Python [List[str]] is a [list string]; a Python [int] is a [Z],
      except for counts, lengths and [enumerate] indices, which are [nat];
    - a [Counter] and the dicts derived from its items are association
      lists in insertion order (a Python dict iterates in insertion
      order, and [most_common] depends on it); the two lookup tables,
      only ever read by key, are [gmap]s;
    - a Python [float] is an IEEE-754 binary64 value and an element of a
      default-dtype torch tensor a binary32 value, both as [spec_float]
      with the operations of [SpecFloat] at the matching precision;
    - a raised exception is the [Raise] branch of [result];
    - the process-wide random generator of torch is a stream of raw
      draws that is read at an explicit position; [randint] and [rand]
      reduce a raw draw to their range. *)

From Stdlib Require Import ZArith Lia SpecFloat QArith.
From stdpp Require Import gmap strings list fin_maps sorting.

Set Default Proof Using "Type".
Open Scope nat_scope.

(** ** Python results *)

Inductive exn : Set :=
| ZeroDivisionError
| OverflowError
| KeyError
| IndexError
| ValueError
| RuntimeError.

Inductive result (A : Type) : Type :=
| Ok (a : A)
| Raise (e : exn).
Arguments Ok {A} a.
Arguments Raise {A} e.

(** Sequencing stops at the first exception; [x ← r; k] is stdpp's
    notation for it. *)
#[export] Instance result_bind : MBind result := λ A B k r,
  match r with
  | Ok a => k a
  | Raise e => Raise e
  end.
#[export] Instance result_ret : MRet result := λ A a, Ok a.

(** ** Python lists, ranges and dicts *)

(** [l[i]], with Python's negative indices. *)
Definition py_index {A} (l : list A) (i : Z) : result A :=
  let n := Z.of_nat (length l) in
  let j := if decide (i < 0)%Z then (i + n)%Z else i in
  if decide (0 ≤ j < n)%Z then
    match l !! Z.to_nat j with
    | Some x => Ok x
    | None => Raise IndexError
    end
  else Raise IndexError.

(** A slice bound, clamped the way [l[a:b]] clamps it. *)
Definition slice_bound (n i : Z) : nat :=
  Z.to_nat (if decide (i < 0)%Z then Z.max (i + n) 0 else Z.min i n).

(** [l[a:b]] *)
Definition py_slice {A} (l : list A) (a b : Z) : list A :=
  let n := Z.of_nat (length l) in
  drop (slice_bound n a) (take (slice_bound n b) l).

(** [range(start, stop, step)] *)
Definition range (start stop step : Z) : result (list Z) :=
  if decide (0 < step)%Z then
    Ok ((λ i : nat, start + Z.of_nat i * step)%Z <$>
          seq 0 (Z.to_nat ((stop - start + step - 1) / step)))
  else if decide (step < 0)%Z then
    Ok ((λ i : nat, start + Z.of_nat i * step)%Z <$>
          seq 0 (Z.to_nat ((start - stop - step - 1) / - step)))
  else Raise ValueError.

(** [enumerate(l)] *)
Definition enumerate {A} (l : list A) : list (nat * A) := imap pair l.

(** [d[k]] on a lookup table. *)
Definition dict_get `{Countable K} {V} (d : gmap K V) (k : K) : result V :=
  match d !! k with
  | Some v => Ok v
  | None => Raise KeyError
  end.

(** [d[k]] on an insertion-ordered dict. *)
Fixpoint items_get {V} (d : list (string * V)) (k : string) : result V :=
  match d with
  | [] => Raise KeyError
  | (k', v) :: d' => if decide (k' = k) then Ok v else items_get d' k
  end.

(** ** The random generator *)

Definition rng : Type := nat → Z.

(** [torch.randint(low, high, (1,)).item()] on one raw draw. *)
Definition randint (low high raw : Z) : result Z :=
  if decide (low < high)%Z then Ok (low + raw mod (high - low))%Z
  else Raise RuntimeError.

(** ** Floating point *)

(** binary64, the Python [float]; binary32, the default torch dtype. *)
Definition f64_div : spec_float → spec_float → spec_float := SFdiv 53 1024.
Definition f32_add : spec_float → spec_float → spec_float := SFadd 24 128.
Definition f32_sub : spec_float → spec_float → spec_float := SFsub 24 128.
Definition f32_mul : spec_float → spec_float → spec_float := SFmul 24 128.
Definition f32_div : spec_float → spec_float → spec_float := SFdiv 24 128.
Definition f32_sqrt : spec_float → spec_float := SFsqrt 24 128.
Definition f32_zero : spec_float := S754_zero false.
Definition f32_one : spec_float := Eval vm_compute in SFone 24 128.

(** [torch.tensor(x)] of a Python float: rounding to binary32. *)
Definition f32_of_f64 (x : spec_float) : spec_float :=
  match x with
  | S754_finite s m e => binary_round 24 128 s m e
  | _ => x
  end.

(** [a / b] on two non-negative Python ints: the correctly rounded
    quotient. *)
Definition int_truediv (a b : nat) : result spec_float :=
  match b, a with
  | 0, _ => Raise ZeroDivisionError
  | _, 0 => Ok (S754_zero false)
  | _, _ =>
      let '(q, e, l) := SFdiv_core_binary 53 1024 (Z.of_nat a) 0 (Z.of_nat b) 0 in
      match binary_round_aux 53 1024 false q e l with
      | S754_infinity _ => Raise OverflowError
      | x => Ok x
      end
  end.

(** [a / b] on two Python floats. *)
Definition float_div (a b : spec_float) : result spec_float :=
  match b with
  | S754_zero _ => Raise ZeroDivisionError
  | _ => Ok (f64_div a b)
  end.

(** [torch.rand(1).item()] on one raw draw: a multiple of [2^-24] in
    [[0, 1)]. *)
Definition rand (raw : Z) : spec_float :=
  binary_normalize 24 128 (raw mod 2 ^ 24) (-24) false.

(** ** [collections.Counter] *)

(** [c[w] += 1] on an insertion-ordered dict: an existing key keeps its
    place, a new key goes last. *)
Fixpoint counter_add (w : string) (c : list (string * nat)) : list (string * nat) :=
  match c with
  | [] => [(w, 1)]
  | (k, n) :: c' =>
      if decide (k = w) then (k, S n) :: c' else (k, n) :: counter_add w c'
  end.

(** [Counter(words)]: one pass over [words], left to right. *)
Definition Counter (words : list string) : list (string * nat) :=
  foldl (λ c w, counter_add w c) [] words.

(** [sorted(..., key=itemgetter(1), reverse=True)] is a stable sort by
    descending count: pairs of equal count keep their dict order.  The
    insertion below places [x], which precedes all of [l] in the dict,
    in front of the first pair whose count does not exceed its own. *)
Fixpoint insert_desc (x : string * nat) (l : list (string * nat)) : list (string * nat) :=
  match l with
  | [] => [x]
  | y :: l' =>
      if decide (x.2 < y.2) then y :: insert_desc x l' else x :: y :: l'
  end.

(** [Counter.most_common()] *)
Definition most_common (c : list (string * nat)) : list (string * nat) :=
  foldr insert_desc [] c.

(** ** [create_lookup_tables] *)

Definition sorted_vocab (words : list string) : list (string * nat) :=
  most_common (Counter words).

(** The two dict comprehensions: entries are written in the order of
    [enumerate(sorted_vocab)], a later entry overwriting an earlier one
    with the same key. *)
Definition int_to_vocab_of (sv : list (string * nat)) : gmap nat string :=
  foldl (λ d '(integer, word), <[integer := word.1]> d) ∅ (enumerate sv).

Definition vocab_to_int_of (sv : list (string * nat)) : gmap string nat :=
  foldl (λ d '(integer, word), <[word.1 := integer]> d) ∅ (enumerate sv).

Definition create_lookup_tables (words : list string)
  : result (gmap string nat * gmap nat string) :=
  let word_counts := Counter words in
  let sorted_vocab := most_common word_counts in
  let int_to_vocab := int_to_vocab_of sorted_vocab in
  let vocab_to_int := vocab_to_int_of sorted_vocab in
  Ok (vocab_to_int, int_to_vocab).

(** ** [subsample_words] *)

(** [{word: count / total_words for word, count in word_counts.items()}] *)
Definition word_freqs (words : list string) : result (list (string * spec_float)) :=
  let word_counts := Counter words in
  let total_words := length words in
  mapM (λ '(word, count), freq ← int_truediv count total_words; Ok (word, freq))
       word_counts.

(** [1 - torch.sqrt(torch.tensor(threshold / freq))] *)
Definition discard_probability (threshold freq : spec_float) : result spec_float :=
  ratio ← float_div threshold freq;
  Ok (f32_sub f32_one (f32_sqrt (f32_of_f64 ratio))).

(** [{word: ... for word, freq in freqs.items()}] *)
Definition prob_discard_of (threshold : spec_float) (freqs : list (string * spec_float))
  : result (list (string * spec_float)) :=
  mapM (λ '(word, freq), p ← discard_probability threshold freq; Ok (word, p)) freqs.

(** [torch.rand(1).item() > p] *)
Definition keeps (draw p : spec_float) : bool := SFltb p draw.

(** The comprehension that builds [train_words]; the token at position
    [i] of the original list reads the draw at [pos + i]. *)
Fixpoint train_words_of (vocab_to_int : gmap string nat)
    (prob_discard : list (string * spec_float)) (g : rng) (pos : nat)
    (words : list string) : result (list nat) :=
  match words with
  | [] => Ok []
  | word :: rest =>
      let draw := rand (g pos) in
      p ← items_get prob_discard word;
      if keeps draw p then
        code ← dict_get vocab_to_int word;
        codes ← train_words_of vocab_to_int prob_discard g (S pos) rest;
        Ok (code :: codes)
      else train_words_of vocab_to_int prob_discard g (S pos) rest
  end.

Definition subsample_words (words : list string) (vocab_to_int : gmap string nat)
    (threshold : spec_float) (g : rng) (pos : nat)
  : result (list nat * list (string * spec_float)) :=
  freqs ← word_freqs words;
  prob_discard ← prob_discard_of threshold freqs;
  train_words ← train_words_of vocab_to_int prob_discard g pos words;
  Ok (train_words, freqs).

(** ** [get_target] *)

Definition back_words {A} (words : list A) (idx rand_window_size : Z) : result (list A) :=
  ns ← range rand_window_size 0 (-1);
  mapM (λ n, py_index words (idx - n)) (filter (λ n, 0 ≤ idx - n)%Z ns).

Definition front_words {A} (words : list A) (idx rand_window_size : Z) : result (list A) :=
  ns ← range 1 (rand_window_size + 1) 1;
  mapM (λ n, py_index words (idx + n))
       (filter (λ n, idx + n < Z.of_nat (length words))%Z ns).

(** [raw] is the draw consumed by [torch.randint]. *)
Definition get_target {A} (words : list A) (idx window_size : Z) (raw : Z)
  : result (list A) :=
  rand_window_size ← randint 1 (window_size + 1) raw;
  back ← back_words words idx rand_window_size;
  front ← front_words words idx rand_window_size;
  Ok (back ++ front).

(** ** [get_batches] *)

Abbreviation batch := (list Z * list Z)%type.

(** The loop over [enumerate(current_words)], with the two accumulators
    and the position of the next draw. *)
Fixpoint batch_loop (current_words : list Z) (items : list (nat * Z))
    (window_size : Z) (g : rng) (pos : nat) (inputs_list targets_list : list Z)
  : result (batch * nat) :=
  match items with
  | [] => Ok ((inputs_list, targets_list), pos)
  | (word_index, current_word) :: rest =>
      target_words ← get_target current_words (Z.of_nat word_index) window_size (g pos);
      batch_loop current_words rest window_size g (S pos)
        (inputs_list ++ replicate (length target_words) current_word)
        (targets_list ++ target_words)
  end.

(** The body of the outer loop for one chunk. *)
Definition make_batch (current_words : list Z) (window_size : Z) (g : rng) (pos : nat)
  : result (batch * nat) :=
  batch_loop current_words (enumerate current_words) window_size g pos [] [].

(** A generator run to exhaustion: what it yielded, in order, and the
    exception that ended it, if any. *)
Record trace (A : Type) : Type := Trace { yielded : list A; raised : option exn }.
Arguments Trace {A} yielded raised.
Arguments yielded {A} t.
Arguments raised {A} t.

Fixpoint batches_of (words : list Z) (batch_size window_size : Z) (g : rng)
    (pos : nat) (idxs : list Z) : trace batch :=
  match idxs with
  | [] => Trace [] None
  | idx :: rest =>
      let current_words := py_slice words idx (idx + batch_size) in
      match make_batch current_words window_size g pos with
      | Raise e => Trace [] (Some e)
      | Ok (b, pos') =>
          let t := batches_of words batch_size window_size g pos' rest in
          Trace (b :: yielded t) (raised t)
      end
  end.

Definition get_batches (words : list Z) (batch_size window_size : Z) (g : rng) (pos : nat)
  : trace batch :=
  match range 0 (Z.of_nat (length words)) batch_size with
  | Raise e => Trace [] (Some e)
  | Ok idxs => batches_of words batch_size window_size g pos idxs
  end.

(** ** [cosine_similarity] *)

(** A tensor of shape [(rows, dim)] is the list of its rows. *)
Abbreviation matrix := (list (list spec_float)).

(** [torch.randint(low, high, (size,))]: the bounds and the size are
    checked before any draw, also when no draw is made. *)
Definition randint_n (low high size : Z) (g : rng) (pos : nat) : result (list Z) :=
  if decide (size < 0)%Z then Raise RuntimeError
  else if decide (low < high)%Z then
    mapM (λ i, randint low high (g (pos + i))) (seq 0 (Z.to_nat size))
  else Raise RuntimeError.

(** [embedding(indices)]: one row of the weight matrix per index. *)
Definition embedding_lookup (weight : matrix) (indices : list Z) : result matrix :=
  mapM (λ i, if decide (0 ≤ i)%Z then
               match weight !! Z.to_nat i with
               | Some row => Ok row
               | None => Raise IndexError
               end
             else Raise IndexError) indices.

(** [x.norm(dim=1, keepdim=True)] for one row: the square root of the
    sum of squares, accumulated left to right. *)
Definition norm (row : list spec_float) : spec_float :=
  f32_sqrt (foldl (λ acc x, f32_add acc (f32_mul x x)) f32_zero row).

(** [x / x.norm(dim=1, keepdim=True)] *)
Definition normalize_rows (x : matrix) : matrix :=
  (λ row, let n := norm row in (λ v, f32_div v n) <$> row) <$> x.

Definition dot (a b : list spec_float) : spec_float :=
  foldl (λ acc '(x, y), f32_add acc (f32_mul x y)) f32_zero (zip a b).

(** [torch.matmul(a, b.T)] *)
Definition matmul_T (a b : matrix) : matrix :=
  (λ ra, (λ rb, dot ra rb) <$> b) <$> a.

Definition cosine_similarity (weight : matrix) (valid_size valid_window : Z)
    (g : rng) (pos : nat) : result (list Z * matrix) :=
  valid_examples ← randint_n 0 valid_window valid_size g pos;
  valid_vectors ← embedding_lookup weight valid_examples;
  let embedding_weights := normalize_rows weight in
  let valid_vectors := normalize_rows valid_vectors in
  let similarities := matmul_T valid_vectors embedding_weights in
  Ok (valid_examples, similarities).

(** ** Reference notions used in the statements *)

(** The number of occurrences of [w] in [words]. *)
Definition occurrences (w : string) (words : list string) : nat :=
  length (filter (λ x, x = w) words).

(** The count stored under [k] in a counter, [0] for an absent key. *)
Fixpoint count_of (k : string) (c : list (string * nat)) : nat :=
  match c with
  | [] => 0
  | (k', n) :: c' => if decide (k' = k) then n else count_of k c'
  end.

(** Descending count order. *)
Definition count_ge (a b : string * nat) : Prop := b.2 ≤ a.2.



Definition is_zero (x : spec_float) : Prop := ∃ s, x = S754_zero s.

Definition f64_one : spec_float := S754_finite false (2 ^ 52) (-52).
Definition threshold_two : spec_float := S754_finite false (2 ^ 52) (-51).

(** [a] stands before [b] in [l]. *)
Definition before {A} (a b : A) (l : list A) : Prop :=
  ∃ l1 l2, l = l1 ++ a :: l2 ∧ b ∈ l2.

(** [w1] occurs in [words] before the first occurrence of [w2]. *)
Definition first_occurs_before (w1 w2 : string) (words : list string) : Prop :=
  ∃ k, w1 ∈ take k words ∧ w2 ∉ take k words.

(** The window size that [get_target] draws from [raw]. *)
Definition window_of (window_size raw : Z) : Z := (1 + raw mod window_size)%Z.

(** The number of chunks of [batch_size] tokens that cover [len] tokens. *)
Definition chunk_count (len batch_size : Z) : nat :=
  Z.to_nat ((len + batch_size - 1) / batch_size).

(** A batch made from one chunk: two parallel lists of tokens of the
    chunk. *)
Definition batch_of_chunk (chunk : list Z) (b : list Z * list Z) : Prop :=
  length b.1 = length b.2
  ∧ Forall (λ x, x ∈ chunk) b.1 ∧ Forall (λ x, x ∈ chunk) b.2.

(** A float that is not a NaN and carries the sign bit [sx]. *)
Definition has_sign (sx : bool) (x : spec_float) : Prop :=
  match x with
  | S754_zero s | S754_infinity s | S754_finite s _ _ => s = sx
  | S754_nan => False
  end.

(** [words[max(idx-R, 0):idx] + words[idx+1:idx+R+1]]: the context of
    position [idx] for a window size [R]. *)
Definition context_window {A} (words : list A) (idx : nat) (R : Z) : list A :=
  py_slice words (Z.max (Z.of_nat idx - R) 0) (Z.of_nat idx)
  ++ py_slice words (Z.of_nat idx + 1) (Z.of_nat idx + R + 1).

(** The (input, target) pairs of a chunk, position by position: the
    token at position [i] paired with each word of its context, for the
    window size drawn from [g (pos + i)]. *)
Definition chunk_pairs (chunk : list Z) (W : Z) (g : rng) (pos : nat) : list (Z * Z) :=
  concat (imap (λ i x, (λ t, (x, t)) <$>
                         context_window chunk i (window_of W (g (pos + i)))) chunk).






(** * Properties *)

(** ** Properties of [Counter] *)

Section counter_facts.
Implicit Types (c : list (string * nat)) (w k : string) (words : list string).

Lemma counter_add_keys c w :
  (counter_add w c).*1 = if decide (w ∈ c.*1) then c.*1 else c.*1 ++ [w].
Proof.
  induction c as [|[k n] c IH]; csimpl; [done|].
  destruct (decide (k = w)) as [->|Hne]; csimpl.
  - rewrite decide_True; [done|]. apply list_elem_of_here.
  - rewrite IH. destruct (decide (w ∈ c.*1)) as [Hin|Hnin].
    + rewrite decide_True; [done|]. by apply list_elem_of_further.
    + rewrite decide_False; [done|].
      intros [?|?]%elem_of_cons; congruence.
Qed.

Lemma counter_add_NoDup c w : NoDup c.*1 → NoDup (counter_add w c).*1.
Proof.
  intros Hnd. rewrite counter_add_keys. case_decide; [done|].
  apply NoDup_app. split_and!; [done| |apply NoDup_singleton].
  intros x Hx ->%list_elem_of_singleton. done.
Qed.

Lemma counter_add_elem c w k :
  k ∈ (counter_add w c).*1 ↔ k = w ∨ k ∈ c.*1.
Proof.
  rewrite counter_add_keys. case_decide.
  - split; [by right|]. intros [->|?]; done.
  - rewrite elem_of_app, list_elem_of_singleton. tauto.
Qed.

Lemma count_of_counter_add c w k :
  count_of k (counter_add w c) =
    if decide (k = w) then S (count_of k c) else count_of k c.
Proof.
  induction c as [|[k' n] c IH]; simpl.
  - destruct (decide (w = k)), (decide (k = w)); congruence.
  - destruct (decide (k' = w)) as [->|Hne]; simpl.
    + destruct (decide (w = k)), (decide (k = w)); congruence.
    + destruct (decide (k' = k)) as [->|Hne']; [|done].
      by rewrite decide_False.
Qed.

Lemma count_of_elem c k n :
  NoDup c.*1 → (k, n) ∈ c → count_of k c = n.
Proof.
  induction c as [|[k' n'] c IH]; csimpl; intros Hnd Hin.
  - by apply elem_of_nil in Hin.
  - apply NoDup_cons in Hnd as [Hk' Hnd].
    apply elem_of_cons in Hin as [[= <- <-]|Hin].
    + by rewrite decide_True.
    + rewrite decide_False; [by apply IH|].
      intros ->. apply Hk'. apply list_elem_of_fmap. by exists (k, n).
Qed.

Lemma count_of_positive c k :
  Forall (λ p, 0 < p.2) c → k ∈ c.*1 → 0 < count_of k c.
Proof.
  induction c as [|[k' n'] c IH]; csimpl; intros Hpos Hin.
  - by apply elem_of_nil in Hin.
  - apply Forall_cons in Hpos as [Hn Hpos].
    destruct (decide (k' = k)) as [->|Hne]; [done|].
    apply IH; [done|]. apply elem_of_cons in Hin as [?|?]; [congruence|done].
Qed.

Lemma counter_add_positive c w :
  Forall (λ p, 0 < p.2) c → Forall (λ p, 0 < p.2) (counter_add w c).
Proof.
  induction c as [|[k n] c IH]; simpl; intros Hpos.
  - repeat constructor.
  - apply Forall_cons in Hpos as [Hn Hpos].
    destruct (decide (k = w)); constructor; simpl in *; auto with lia.
Qed.

Lemma occurrences_snoc words w k :
  occurrences k (words ++ [w]) =
    if decide (k = w) then S (occurrences k words) else occurrences k words.
Proof.
  unfold occurrences. rewrite filter_app, length_app.
  rewrite filter_cons, filter_nil.
  destruct (decide (w = k)), (decide (k = w)); simpl; try congruence; lia.
Qed.

(** The invariant of the counting loop. *)
Lemma Counter_spec words :
  NoDup (Counter words).*1
  ∧ Forall (λ p, 0 < p.2) (Counter words)
  ∧ (∀ k, k ∈ (Counter words).*1 ↔ k ∈ words)
  ∧ (∀ k, count_of k (Counter words) = occurrences k words).
Proof.
  unfold Counter. induction words as [|w words IH] using rev_ind.
  - simpl. split_and!; [apply NoDup_nil_2|constructor| |done].
    intros k. done.
  - destruct IH as (Hnd & Hpos & Hdom & Hcnt).
    rewrite foldl_snoc. split_and!.
    + by apply counter_add_NoDup.
    + by apply counter_add_positive.
    + intros k. rewrite counter_add_elem, Hdom, elem_of_app,
        list_elem_of_singleton. tauto.
    + intros k. by rewrite count_of_counter_add, occurrences_snoc, Hcnt.
Qed.

Lemma Counter_elem words k n :
  (k, n) ∈ Counter words → k ∈ words ∧ n = occurrences k words.
Proof.
  intros Hin. destruct (Counter_spec words) as (Hnd & _ & Hdom & Hcnt).
  split.
  - apply Hdom. apply list_elem_of_fmap. by exists (k, n).
  - rewrite <-Hcnt. symmetry. by apply count_of_elem.
Qed.
End counter_facts.

(** ** Properties of [most_common] *)

Section most_common_facts.
Implicit Types (c l : list (string * nat)) (x : string * nat).

Lemma insert_desc_Permutation x l : insert_desc x l ≡ₚ x :: l.
Proof.
  induction l as [|y l IH]; simpl; [done|].
  case_decide; [|done]. by rewrite IH, Permutation_swap.
Qed.

Lemma most_common_Permutation c : most_common c ≡ₚ c.
Proof.
  induction c as [|x c IH]; simpl; [done|].
  by rewrite insert_desc_Permutation, IH.
Qed.

Lemma insert_desc_sorted x l :
  StronglySorted count_ge l → StronglySorted count_ge (insert_desc x l).
Proof.
  induction 1 as [|y l Hs IH Hy]; simpl.
  - repeat constructor.
  - case_decide as Hlt.
    + constructor; [done|]. rewrite insert_desc_Permutation.
      constructor; [unfold count_ge; lia|done].
    + constructor; [by constructor|].
      constructor; [unfold count_ge; lia|].
      eapply Forall_impl; [exact Hy|]. unfold count_ge. intros; lia.
Qed.

Lemma most_common_sorted c : StronglySorted count_ge (most_common c).
Proof.
  induction c as [|x c IH]; simpl; [constructor|].
  by apply insert_desc_sorted.
Qed.

Lemma sorted_lookup_ge l i j a b :
  StronglySorted count_ge l → i ≤ j →
  l !! i = Some a → l !! j = Some b → b.2 ≤ a.2.
Proof.
  intros Hs. revert i j. induction Hs as [|y l Hs IH Hy]; intros i j Hij Hi Hj.
  - by rewrite lookup_nil in Hi.
  - destruct i as [|i], j as [|j]; simpl in *; simplify_eq; [lia| |lia|].
    + rewrite Forall_forall in Hy. apply (Hy b).
      by eapply list_elem_of_lookup_2.
    + apply (IH i j); [lia|done..].
Qed.
End most_common_facts.

(** ** Properties of the dict comprehensions *)

Section tables_facts.
Implicit Types (sv : list (string * nat)) (w : string) (i : nat).

Lemma enumerate_snoc {A} (l : list A) (x : A) :
  enumerate (l ++ [x]) = enumerate l ++ [(length l, x)].
Proof.
  unfold enumerate. rewrite imap_app. simpl. by rewrite Nat.add_0_r.
Qed.

Lemma int_to_vocab_of_snoc sv x :
  int_to_vocab_of (sv ++ [x]) = <[length sv := x.1]> (int_to_vocab_of sv).
Proof. unfold int_to_vocab_of. by rewrite enumerate_snoc, foldl_snoc. Qed.

Lemma vocab_to_int_of_snoc sv x :
  vocab_to_int_of (sv ++ [x]) = <[x.1 := length sv]> (vocab_to_int_of sv).
Proof. unfold vocab_to_int_of. by rewrite enumerate_snoc, foldl_snoc. Qed.

Lemma int_to_vocab_of_lookup sv i : int_to_vocab_of sv !! i = sv.*1 !! i.
Proof.
  induction sv as [|x sv IH] using rev_ind; [done|].
  rewrite int_to_vocab_of_snoc, fmap_app. simpl.
  destruct (decide (i = length sv)) as [->|Hne].
  - rewrite lookup_insert_eq.
    by rewrite lookup_app_r, length_fmap, Nat.sub_diag by (rewrite length_fmap; lia).
  - rewrite lookup_insert_ne, IH by done.
    destruct (decide (i < length sv)).
    + by rewrite lookup_app_l by (rewrite length_fmap; lia).
    + rewrite !lookup_ge_None_2; [done|..];
        rewrite ?length_app, length_fmap; simpl; lia.
Qed.

Lemma vocab_to_int_of_lookup sv w i :
  NoDup sv.*1 → vocab_to_int_of sv !! w = Some i ↔ sv.*1 !! i = Some w.
Proof.
  revert i. induction sv as [|x sv IH] using rev_ind; intros i Hnd; [done|].
  rewrite fmap_app in Hnd. simpl in Hnd.
  apply NoDup_app in Hnd as (Hnd & Hfresh & _).
  assert (x.1 ∉ sv.*1) as Hx.
  { intros Hin. apply (Hfresh _ Hin). apply list_elem_of_here. }
  rewrite vocab_to_int_of_snoc, fmap_app. simpl.
  destruct (decide (i < length sv)) as [Hlt|Hge].
  - rewrite lookup_app_l by (rewrite length_fmap; lia).
    destruct (decide (w = x.1)) as [->|Hne].
    + rewrite lookup_insert_eq. split; [intros [= <-]; lia|].
      intros Hi. destruct Hx. by eapply list_elem_of_lookup_2.
    + rewrite lookup_insert_ne by done. by apply IH.
  - destruct (decide (w = x.1)) as [->|Hne].
    + rewrite lookup_insert_eq. split.
      * intros [= <-].
        by rewrite lookup_app_r, length_fmap, Nat.sub_diag
          by (rewrite length_fmap; lia).
      * intros Hi. apply lookup_lt_Some in Hi.
        rewrite length_app, length_fmap in Hi. simpl in Hi.
        f_equal. lia.
    + rewrite lookup_insert_ne by done. rewrite IH by done. split.
      * intros Hi%lookup_lt_Some. rewrite length_fmap in Hi. lia.
      * intros Hi. assert (i = length sv) as ->.
        { apply lookup_lt_Some in Hi.
          rewrite length_app, length_fmap in Hi. simpl in Hi. lia. }
        rewrite lookup_app_r, length_fmap, Nat.sub_diag in Hi
          by (rewrite length_fmap; lia).
        simpl in Hi. congruence.
Qed.
End tables_facts.

(** ** The sorted vocabulary of a token list *)

Section sorted_vocab_facts.
Implicit Types (words : list string) (w : string).

Lemma sorted_vocab_Permutation words : sorted_vocab words ≡ₚ Counter words.
Proof. apply most_common_Permutation. Qed.

Lemma sorted_vocab_NoDup words : NoDup (sorted_vocab words).*1.
Proof.
  rewrite sorted_vocab_Permutation. apply Counter_spec.
Qed.

Lemma sorted_vocab_keys words w : w ∈ (sorted_vocab words).*1 ↔ w ∈ words.
Proof.
  rewrite sorted_vocab_Permutation. apply Counter_spec.
Qed.

Lemma sorted_vocab_count words w n :
  (w, n) ∈ sorted_vocab words → n = occurrences w words.
Proof.
  rewrite sorted_vocab_Permutation. intros Hin.
  by apply Counter_elem in Hin as [_ ->].
Qed.

Lemma sorted_vocab_length words :
  length (sorted_vocab words) = length (remove_dups words).
Proof.
  rewrite <-(length_fmap fst). apply Permutation_length.
  apply NoDup_Permutation.
  - apply sorted_vocab_NoDup.
  - apply NoDup_remove_dups.
  - intros w. by rewrite sorted_vocab_keys, elem_of_remove_dups.
Qed.

Lemma occurrences_absent words w : w ∉ words → occurrences w words = 0.
Proof.
  unfold occurrences. induction words as [|k words IH]; intros Hw; [done|].
  apply not_elem_of_cons in Hw as [Hne Hw].
  rewrite filter_cons, decide_False by done. by apply IH.
Qed.

Lemma occurrences_NoDup words w :
  NoDup words → w ∈ words → occurrences w words = 1.
Proof.
  induction 1 as [|k l Hk Hnd IH]; intros Hin.
  - by apply elem_of_nil in Hin.
  - unfold occurrences. rewrite filter_cons.
    destruct (decide (k = w)) as [->|Hne]; simpl.
    + f_equal. by apply occurrences_absent.
    + apply IH. apply elem_of_cons in Hin as [?|?]; [congruence|done].
Qed.

Lemma occurrences_keys words w :
  w ∈ words → occurrences w (sorted_vocab words).*1 = 1.
Proof.
  intros Hin%sorted_vocab_keys.
  apply occurrences_NoDup; [apply sorted_vocab_NoDup|done].
Qed.
End sorted_vocab_facts.

(** ** [create_lookup_tables]: the tables *)

Lemma tables_inverse (sv : list (string * nat)) (w : string) (i : nat) :
  NoDup sv.*1 → vocab_to_int_of sv !! w = Some i ↔ int_to_vocab_of sv !! i = Some w.
Proof.
  intros Hnd. by rewrite vocab_to_int_of_lookup, int_to_vocab_of_lookup.
Qed.

Lemma vocab_to_int_of_dom (sv : list (string * nat)) (w : string) :
  NoDup sv.*1 → w ∈ dom (vocab_to_int_of sv) ↔ w ∈ sv.*1.
Proof.
  intros Hnd. rewrite elem_of_dom. split.
  - intros [i Hi]. apply vocab_to_int_of_lookup in Hi; [|done].
    by eapply list_elem_of_lookup_2.
  - intros [i Hi]%list_elem_of_lookup_1. exists i.
    by apply vocab_to_int_of_lookup.
Qed.

Lemma sorted_vocab_lookup_count (words : list string) (i : nat) (w : string) :
  (sorted_vocab words).*1 !! i = Some w →
  sorted_vocab words !! i = Some (w, occurrences w words).
Proof.
  rewrite list_lookup_fmap. destruct (sorted_vocab words !! i) as [[k n]|] eqn:Hi;
    simpl; intros [= <-].
  do 2 f_equal. apply sorted_vocab_count. by eapply list_elem_of_lookup_2.
Qed.

(** C1. The two tables returned by [create_lookup_tables] are exact
    inverses: every word of the list is encoded by [vocab_to_int] and
    decoded back to itself by [int_to_vocab], a pair is in one table
    exactly when the mirrored pair is in the other, and the keys of
    [vocab_to_int] are the words of the list, each exactly once. *)
Theorem lookup_tables_inverse (words : list string) :
  ∃ vocab_to_int int_to_vocab,
    create_lookup_tables words = Ok (vocab_to_int, int_to_vocab)
    ∧ (∀ w, w ∈ words →
         ∃ i, vocab_to_int !! w = Some i ∧ int_to_vocab !! i = Some w)
    ∧ (∀ w i, vocab_to_int !! w = Some i ↔ int_to_vocab !! i = Some w)
    ∧ (∀ w, w ∈ (map_to_list vocab_to_int).*1 ↔ w ∈ words)
    ∧ (∀ w, w ∈ words → occurrences w (map_to_list vocab_to_int).*1 = 1).
Proof.
  pose proof (sorted_vocab_NoDup words) as Hnd.
  eexists _, _. split; [reflexivity|]. fold (sorted_vocab words).
  assert (∀ w, w ∈ (map_to_list (vocab_to_int_of (sorted_vocab words))).*1
               ↔ w ∈ words) as Hkeys.
  { intros w. rewrite <-(sorted_vocab_keys words w), <-(vocab_to_int_of_dom _ _ Hnd).
    rewrite elem_of_dom, list_elem_of_fmap. split.
    - intros [[k i] [-> Hin%elem_of_map_to_list]]. by exists i.
    - intros [i Hi]. exists (w, i). by rewrite elem_of_map_to_list. }
  split_and!.
  - intros w Hw%sorted_vocab_keys%list_elem_of_lookup_1. destruct Hw as [i Hi].
    exists i. split; [by apply vocab_to_int_of_lookup|].
    by rewrite int_to_vocab_of_lookup.
  - intros w i. by apply tables_inverse.
  - done.
  - intros w Hw. apply occurrences_NoDup; [|by apply Hkeys].
    apply NoDup_fst_map_to_list.
Qed.

(** C2, as the code has it. On the empty token sequence
    [create_lookup_tables] raises nothing: it returns two empty
    tables. *)
Theorem lookup_tables_empty_input :
  create_lookup_tables [] = Ok (∅, ∅).
Proof. reflexivity. Qed.

(** C2, refuted as stated: the call on the empty sequence does not
    fail. *)
Lemma empty_input_does_not_fail :
  ¬ ∃ e, create_lookup_tables [] = Raise e.
Proof. intros [e He]. discriminate He. Qed.

(** C5. On a non-empty token list, index 0 of [int_to_vocab] holds a
    word of maximal occurrence count, the indices in use are exactly
    [0 .. n-1] for [n] distinct words, counts do not increase along the
    indices, and [vocab_to_int] assigns each word that same index. *)
Theorem lookup_tables_descending (words : list string) (Hne : words ≠ []) :
  ∃ vocab_to_int int_to_vocab,
    create_lookup_tables words = Ok (vocab_to_int, int_to_vocab)
    ∧ (∃ w0, int_to_vocab !! 0 = Some w0 ∧ w0 ∈ words
             ∧ ∀ w, occurrences w words ≤ occurrences w0 words)
    ∧ (∀ i, is_Some (int_to_vocab !! i) ↔ i < length (remove_dups words))
    ∧ (∀ i j wi wj, i ≤ j →
         int_to_vocab !! i = Some wi → int_to_vocab !! j = Some wj →
         occurrences wj words ≤ occurrences wi words)
    ∧ (∀ w i, vocab_to_int !! w = Some i ↔ int_to_vocab !! i = Some w).
Proof.
  pose proof (sorted_vocab_NoDup words) as Hnd.
  eexists _, _. split; [reflexivity|]. fold (sorted_vocab words).
  assert (∀ i j wi wj, i ≤ j →
            (sorted_vocab words).*1 !! i = Some wi →
            (sorted_vocab words).*1 !! j = Some wj →
            occurrences wj words ≤ occurrences wi words) as Hdesc.
  { intros i j wi wj Hij Hi%sorted_vocab_lookup_count Hj%sorted_vocab_lookup_count.
    apply (sorted_lookup_ge _ _ _ _ _ (most_common_sorted (Counter words)) Hij Hi Hj). }
  split_and!.
  - destruct words as [|w1 words]; [done|].
    assert (w1 ∈ (sorted_vocab (w1 :: words)).*1) as Hw1.
    { apply sorted_vocab_keys, list_elem_of_here. }
    destruct ((sorted_vocab (w1 :: words)).*1 !! 0) as [w0|] eqn:H0.
    2:{ apply lookup_ge_None in H0. apply list_elem_of_lookup_1 in Hw1 as [i Hi].
        apply lookup_lt_Some in Hi. lia. }
    exists w0. rewrite int_to_vocab_of_lookup. split_and!; [done| |].
    + apply sorted_vocab_keys. by eapply list_elem_of_lookup_2.
    + intros w. destruct (decide (w ∈ w1 :: words)) as [Hin|Hout].
      * apply sorted_vocab_keys, list_elem_of_lookup_1 in Hin as [j Hj].
        apply (Hdesc 0 j); [lia|done..].
      * rewrite (occurrences_absent _ w Hout). lia.
  - intros i. rewrite int_to_vocab_of_lookup, <-sorted_vocab_length.
    rewrite <-(length_fmap fst). apply lookup_lt_is_Some.
  - intros i j wi wj Hij. rewrite !int_to_vocab_of_lookup. by apply Hdesc.
  - intros w i. by apply tables_inverse.
Qed.

Lemma lookup_tables_descending_witness :
  ∃ vocab_to_int int_to_vocab,
    create_lookup_tables ["b"; "a"; "c"; "a"]%string = Ok (vocab_to_int, int_to_vocab)
    ∧ (∃ w0, int_to_vocab !! 0 = Some w0 ∧ w0 ∈ ["b"; "a"; "c"; "a"]%string
             ∧ ∀ w, occurrences w ["b"; "a"; "c"; "a"]%string
                    ≤ occurrences w0 ["b"; "a"; "c"; "a"]%string)
    ∧ (∀ i, is_Some (int_to_vocab !! i)
            ↔ i < length (remove_dups ["b"; "a"; "c"; "a"]%string))
    ∧ (∀ i j wi wj, i ≤ j →
         int_to_vocab !! i = Some wi → int_to_vocab !! j = Some wj →
         occurrences wj ["b"; "a"; "c"; "a"]%string
         ≤ occurrences wi ["b"; "a"; "c"; "a"]%string)
    ∧ (∀ w i, vocab_to_int !! w = Some i ↔ int_to_vocab !! i = Some w).
Proof. apply (lookup_tables_descending ["b"; "a"; "c"; "a"]%string). discriminate. Defined.

(** ** Lists, ranges and comprehensions *)

Lemma mapM_Ok {A B} (f : A → result B) (l : list A) :
  Forall (λ x, ∃ y, f x = Ok y) l →
  ∃ k, mapM f l = Ok k ∧ Forall2 (λ x y, f x = Ok y) l k.
Proof.
  induction 1 as [|x l [y Hy] _ (k & Hk & IH)]; simpl.
  - exists []. split; [done|constructor].
  - exists (y :: k). rewrite Hy. simpl. rewrite Hk. simpl.
    split; [done|by constructor].
Qed.

Lemma filter_none {A} (P : A → Prop) `{!∀ x, Decision (P x)} (l : list A) :
  Forall (λ x, ¬ P x) l → filter P l = [].
Proof.
  induction 1 as [|x l Hx _ IH]; [done|].
  by rewrite filter_cons, decide_False.
Qed.

Lemma py_index_Ok {A} (l : list A) (i : Z) :
  (0 ≤ i < Z.of_nat (length l))%Z →
  ∃ x, py_index l i = Ok x ∧ l !! Z.to_nat i = Some x.
Proof.
  intros Hi. unfold py_index.
  destruct (decide (i < 0)%Z); [lia|]. rewrite decide_True by lia.
  destruct (lookup_lt_is_Some_2 l (Z.to_nat i)) as [x Hx]; [lia|].
  exists x. by rewrite Hx.
Qed.

Lemma range_up (R : Z) :
  (0 ≤ R)%Z →
  range 1 (R + 1) 1 = Ok ((λ i : nat, 1 + Z.of_nat i)%Z <$> seq 0 (Z.to_nat R)).
Proof.
  intros HR. unfold range. rewrite decide_True by lia. f_equal.
  replace ((R + 1 - 1 + 1 - 1) / 1)%Z with R by (rewrite Z.div_1_r; lia).
  apply list_fmap_ext. intros; lia.
Qed.

Lemma range_down (R : Z) :
  (0 ≤ R)%Z →
  range R 0 (-1) = Ok ((λ i : nat, R - Z.of_nat i)%Z <$> seq 0 (Z.to_nat R)).
Proof.
  intros HR. unfold range. rewrite decide_False by lia.
  rewrite decide_True by lia. f_equal.
  replace ((R - 0 - -1 - 1) / - -1)%Z with R by (simpl; rewrite Z.div_1_r; lia).
  apply list_fmap_ext. intros; lia.
Qed.

Lemma range_up_bounds (R n : Z) :
  n ∈ (λ i : nat, 1 + Z.of_nat i)%Z <$> seq 0 (Z.to_nat R) → (1 ≤ n ≤ R)%Z.
Proof.
  intros (i & -> & Hi%elem_of_seq)%list_elem_of_fmap. lia.
Qed.

Lemma range_down_bounds (R n : Z) :
  n ∈ (λ i : nat, R - Z.of_nat i)%Z <$> seq 0 (Z.to_nat R) → (1 ≤ n ≤ R)%Z.
Proof.
  intros (i & -> & Hi%elem_of_seq)%list_elem_of_fmap. lia.
Qed.

Lemma randint_window (W raw : Z) :
  (1 ≤ W)%Z → ∃ R, randint 1 (W + 1) raw = Ok R ∧ (1 ≤ R ≤ W)%Z.
Proof.
  intros HW. unfold randint. rewrite decide_True by lia.
  eexists. split; [done|].
  replace (W + 1 - 1)%Z with W by lia.
  pose proof (Z.mod_pos_bound raw W). lia.
Qed.

(** ** [get_target]: where the context words come from *)

Section get_target_facts.
Context {A : Type}.
Implicit Types (words : list A) (idx R W raw : Z).

Lemma back_words_at_start words R :
  (0 ≤ R)%Z → back_words words 0 R = Ok [].
Proof.
  intros HR. unfold back_words. rewrite range_down by done. simpl.
  rewrite filter_none; [done|].
  apply Forall_forall. intros n Hn%range_down_bounds. lia.
Qed.

(** A comprehension over offsets [n] whose positions [pos n] are all
    inside the list returns the words at those positions. *)
Lemma mapM_py_index_positions words (pos : Z → Z) (P : Z → Prop) (ns : list Z) :
  Forall (λ n, (0 ≤ pos n < Z.of_nat (length words))%Z ∧ P (pos n)) ns →
  ∃ res ps, mapM (λ n, py_index words (pos n)) ns = Ok res
    ∧ Forall2 (λ w p, words !! p = Some w ∧ P (Z.of_nat p)) res ps.
Proof.
  induction 1 as [|n ns [Hn HP] _ (res & ps & Hres & IH)]; simpl.
  - exists [], []. split; [done|constructor].
  - destruct (py_index_Ok words (pos n) Hn) as (x & -> & Hx). simpl.
    rewrite Hres. simpl. exists (x :: res), (Z.to_nat (pos n) :: ps).
    split; [done|]. constructor; [|done].
    split; [done|]. by rewrite Z2Nat.id by lia.
Qed.

(** The words before the target come from positions [p] with
    [idx - R ≤ p < idx]. *)
Lemma back_words_positions words idx R :
  (0 ≤ idx < Z.of_nat (length words))%Z → (0 ≤ R)%Z →
  ∃ back ps, back_words words idx R = Ok back
    ∧ Forall2 (λ w p, words !! p = Some w
                      ∧ (idx - R ≤ Z.of_nat p < idx)%Z) back ps.
Proof.
  intros Hidx HR. unfold back_words. rewrite range_down by done. simpl.
  apply (mapM_py_index_positions words (λ n, idx - n)%Z
           (λ p, idx - R ≤ p < idx)%Z).
  apply Forall_forall. intros n [Hn Hr%range_down_bounds]%list_elem_of_filter.
  lia.
Qed.

(** The words after the target come from positions [p] with
    [idx < p ≤ idx + R]. *)
Lemma front_words_positions words idx R :
  (0 ≤ idx)%Z → (0 ≤ R)%Z →
  ∃ front ps, front_words words idx R = Ok front
    ∧ Forall2 (λ w p, words !! p = Some w
                      ∧ (idx < Z.of_nat p ≤ idx + R)%Z) front ps.
Proof.
  intros Hidx HR. unfold front_words. rewrite range_up by done. simpl.
  apply (mapM_py_index_positions words (λ n, idx + n)%Z
           (λ p, idx < p ≤ idx + R)%Z).
  apply Forall_forall. intros n [Hn Hr%range_up_bounds]%list_elem_of_filter.
  lia.
Qed.
End get_target_facts.

(** C6. On a non-empty word list with [window_size = W ≥ 1],
    [get_target] at [idx = 0] draws a window size [R] in [[1, W]], its
    list of back-words is empty, and every word it returns is the word
    at a position after the target whose distance from it is at least 1
    and at most [W]. *)
Theorem get_target_at_start {A} (words : list A) (W raw : Z)
    (Hne : words ≠ []) (HW : (1 ≤ W)%Z) :
  ∃ R res ps,
    randint 1 (W + 1) raw = Ok R ∧ (1 ≤ R ≤ W)%Z
    ∧ back_words words 0 R = Ok []
    ∧ get_target words 0 W raw = Ok res
    ∧ Forall2 (λ w p, words !! p = Some w
                      ∧ (1 ≤ Z.of_nat p - 0 ≤ W)%Z) res ps.
Proof.
  destruct (randint_window W raw HW) as (R & HR & HRW).
  destruct (front_words_positions words 0 R) as (front & ps & Hf & Hps);
    [lia..|].
  exists R, front, ps. unfold get_target. rewrite HR. simpl.
  rewrite back_words_at_start by lia. simpl. rewrite Hf. simpl.
  split_and!; [done|lia|lia|done|done|].
  eapply Forall2_impl; [exact Hps|]. simpl. intros w p [Hw Hp]. split; [done|lia].
Qed.

Lemma get_target_at_start_witness :
  ∃ R res ps,
    randint 1 (2 + 1) 7 = Ok R ∧ (1 ≤ R ≤ 2)%Z
    ∧ back_words ["a"; "b"; "c"; "d"]%string 0 R = Ok []
    ∧ get_target ["a"; "b"; "c"; "d"]%string 0 2 7 = Ok res
    ∧ Forall2 (λ w p, ["a"; "b"; "c"; "d"]%string !! p = Some w
                      ∧ (1 ≤ Z.of_nat p - 0 ≤ 2)%Z) res ps.
Proof.
  apply (get_target_at_start ["a"; "b"; "c"; "d"]%string 2 7); [discriminate|lia].
Defined.

Lemma randint_one (raw : Z) : randint 1 (1 + 1) raw = Ok 1%Z.
Proof.
  unfold randint. simpl. by rewrite Z.mod_1_r.
Qed.

Lemma back_words_one {A} (words : list A) (idx : nat) :
  idx < length words →
  back_words words (Z.of_nat idx) 1 =
    Ok (if decide (idx = 0) then [] else option_list (words !! (idx - 1))).
Proof.
  intros Hidx. unfold back_words.
  change (range 1 0 (-1)) with (Ok [1%Z]). simpl.
  rewrite filter_cons, filter_nil. destruct (decide (idx = 0)) as [->|Hpos].
  - by rewrite decide_False by lia.
  - rewrite decide_True by lia. simpl.
    destruct (py_index_Ok words (Z.of_nat idx - 1)) as (x & -> & Hx); [lia|].
    replace (Z.to_nat (Z.of_nat idx - 1)) with (idx - 1) in Hx by lia.
    by rewrite Hx.
Qed.

Lemma front_words_one {A} (words : list A) (idx : nat) :
  idx < length words →
  front_words words (Z.of_nat idx) 1 =
    Ok (if decide (idx = length words - 1) then []
        else option_list (words !! (idx + 1))).
Proof.
  intros Hidx. unfold front_words.
  change (range 1 (1 + 1) 1) with (Ok [1%Z]). simpl.
  rewrite filter_cons, filter_nil.
  destruct (decide (idx = length words - 1)) as [Hlast|Hmid].
  - by rewrite decide_False by lia.
  - rewrite decide_True by lia. simpl.
    destruct (py_index_Ok words (Z.of_nat idx + 1)) as (x & -> & Hx); [lia|].
    replace (Z.to_nat (Z.of_nat idx + 1)) with (idx + 1) in Hx by lia.
    by rewrite Hx.
Qed.

(** C10. With [window_size = 1] the result of [get_target] does not
    depend on the random draw: on a list of at least two words and a
    valid [idx], any two draws give the same list, the word before the
    target (absent when [idx = 0]) followed by the word after it
    (absent when [idx] is the last position). *)
Theorem get_target_window_one {A} (words : list A) (idx : nat) (raw1 raw2 : Z)
    (Hlen : 2 ≤ length words) (Hidx : idx < length words) :
  let prev := if decide (idx = 0) then []
              else option_list (words !! (idx - 1)) in
  let next := if decide (idx = length words - 1) then []
              else option_list (words !! (idx + 1)) in
  get_target words (Z.of_nat idx) 1 raw1 = Ok (prev ++ next)
  ∧ get_target words (Z.of_nat idx) 1 raw2 = Ok (prev ++ next)
  ∧ (idx ≠ 0 → ∃ x, words !! (idx - 1) = Some x ∧ prev = [x])
  ∧ (idx ≠ length words - 1 → ∃ y, words !! (idx + 1) = Some y ∧ next = [y]).
Proof.
  intros prev next.
  assert (∀ raw, get_target words (Z.of_nat idx) 1 raw = Ok (prev ++ next)) as Hget.
  { intros raw. unfold get_target. rewrite randint_one. simpl.
    rewrite back_words_one by done. simpl.
    by rewrite front_words_one by done. }
  split_and!; [apply Hget..| |].
  - intros Hpos. destruct (lookup_lt_is_Some_2 words (idx - 1)) as [x Hx]; [lia|].
    exists x. subst prev. by rewrite decide_False, Hx by done.
  - intros Hmid. destruct (lookup_lt_is_Some_2 words (idx + 1)) as [y Hy]; [lia|].
    exists y. subst next. by rewrite decide_False, Hy by done.
Qed.

Lemma get_target_window_one_witness :
  get_target ["a"; "b"; "c"; "d"]%string 1 1 5 = Ok ["a"; "c"]%string
  ∧ get_target ["a"; "b"; "c"; "d"]%string 1 1 12 = Ok ["a"; "c"]%string.
Proof.
  pose proof (get_target_window_one ["a"; "b"; "c"; "d"]%string 1 5 12) as H.
  simpl in H. destruct H as (H1 & H2 & _); [lia|lia|]. by split.
Defined.

(** The example of the specification: index 1 of four words, a window
    of one. *)
Example get_target_example (raw : Z) :
  get_target ["a"; "b"; "c"; "d"]%string 1 1 raw = Ok ["a"; "c"]%string.
Proof.
  unfold get_target. by rewrite randint_one.
Qed.

(** ** [get_batches] *)

(** The example of the specification: one chunk of five tokens, a window
    of one. *)
Example get_batches_example (g : rng) :
  get_batches [0; 1; 2; 3; 4]%Z 5 1 g 0 =
    Trace [([0; 1; 1; 2; 2; 3; 3; 4]%Z, [1; 0; 2; 1; 3; 2; 4; 3]%Z)] None.
Proof.
  unfold get_batches. simpl. unfold make_batch. simpl.
  unfold get_target. by rewrite !randint_one.
Qed.

Lemma get_target_returns {A} (words : list A) (idx W raw : Z) :
  (0 ≤ idx < Z.of_nat (length words))%Z → (1 ≤ W)%Z →
  ∃ res, get_target words idx W raw = Ok res.
Proof.
  intros Hidx HW. destruct (randint_window W raw HW) as (R & HR & HRW).
  destruct (back_words_positions words idx R) as (back & ? & Hb & _); [lia..|].
  destruct (front_words_positions words idx R) as (front & ? & Hf & _); [lia..|].
  exists (back ++ front). unfold get_target.
  rewrite HR. simpl. rewrite Hb. simpl. by rewrite Hf.
Qed.

Lemma batch_loop_returns (current_words : list Z) (items : list (nat * Z))
    (W : Z) (g : rng) (pos : nat) (inputs targets : list Z) :
  (1 ≤ W)%Z → Forall (λ it, it.1 < length current_words) items →
  ∃ b pos', batch_loop current_words items W g pos inputs targets = Ok (b, pos').
Proof.
  intros HW Hitems. revert pos inputs targets.
  induction Hitems as [|[i w] items Hi _ IH]; intros pos inputs targets; simpl.
  - by eexists _, _.
  - destruct (get_target_returns current_words (Z.of_nat i) W (g pos))
      as [tw ->]; [simpl in Hi; lia|done|].
    simpl. apply IH.
Qed.

Lemma make_batch_returns (current_words : list Z) (W : Z) (g : rng) (pos : nat) :
  (1 ≤ W)%Z → ∃ b pos', make_batch current_words W g pos = Ok (b, pos').
Proof.
  intros HW. apply batch_loop_returns; [done|].
  apply Forall_forall. intros [i w] (j & y & [= -> ->] & Hj)%elem_of_lookup_imap.
  simpl. by eapply lookup_lt_Some.
Qed.

(** With a valid window size no chunk raises: the generator yields one
    batch per start index, the last one made from the last chunk. *)
Lemma batches_of_snoc (words : list Z) (B W : Z) (g : rng) (pos : nat)
    (idxs : list Z) (idx : Z) :
  (1 ≤ W)%Z →
  ∃ bs b pos1 pos2,
    batches_of words B W g pos (idxs ++ [idx]) = Trace (bs ++ [b]) None
    ∧ length bs = length idxs
    ∧ make_batch (py_slice words idx (idx + B)) W g pos1 = Ok (b, pos2).
Proof.
  intros HW. revert pos. induction idxs as [|i idxs IH]; intros pos; simpl.
  - destruct (make_batch_returns (py_slice words idx (idx + B)) W g pos HW)
      as (b & pos' & Hb).
    exists [], b, pos, pos'. by rewrite Hb.
  - destruct (make_batch_returns (py_slice words i (i + B)) W g pos HW)
      as (b0 & pos0 & ->).
    destruct (IH pos0) as (bs & b & pos1 & pos2 & -> & Hlen & Hb).
    exists (b0 :: bs), b, pos1, pos2. simpl. by rewrite Hlen.
Qed.

Lemma range_chunks (len B : Z) :
  (0 ≤ len)%Z → (1 ≤ B)%Z → (len mod B ≠ 0)%Z →
  range 0 len B =
    Ok (((λ i : nat, 0 + Z.of_nat i * B)%Z <$> seq 0 (Z.to_nat (len / B)))
        ++ [(len / B * B)%Z]).
Proof.
  intros Hlen HB Hmod. unfold range. rewrite decide_True by lia. f_equal.
  pose proof (Z.div_mod len B ltac:(lia)) as Hdm.
  pose proof (Z.mod_pos_bound len B ltac:(lia)) as Hr.
  pose proof (Z.div_pos len B ltac:(lia) ltac:(lia)) as Hq.
  replace ((len - 0 + B - 1) / B)%Z with (len / B + 1)%Z.
  2:{ apply (Z.div_unique _ _ _ (len mod B - 1)); lia. }
  rewrite Z2Nat.inj_add by lia. change (Z.to_nat 1) with 1.
  rewrite Nat.add_1_r, seq_S, fmap_app. simpl.
  do 2 f_equal. lia.
Qed.

Lemma py_slice_last_chunk {A} (words : list A) (B : Z) :
  let len := Z.of_nat (length words) in
  (1 ≤ B)%Z → (len mod B ≠ 0)%Z →
  py_slice words (len / B * B) (len / B * B + B)
  = drop (Z.to_nat (len / B * B)) words.
Proof.
  intros len HB Hmod. unfold py_slice, slice_bound. fold len.
  pose proof (Z.div_mod len B ltac:(lia)) as Hdm.
  pose proof (Z.mod_pos_bound len B ltac:(lia)) as Hr.
  pose proof (Z.div_pos len B ltac:(lia) ltac:(lia)) as Hq.
  rewrite !decide_False by nia.
  rewrite Z.min_l, Z.min_r by nia.
  rewrite take_ge; [done|]. subst len. lia.
Qed.

(** ** Floating point: rounding *)

Section rounding_facts.
Variables prec emax : Z.
Open Scope Z_scope.

Lemma digits2_pos_bounds (p : positive) :
  2 ^ (Zpos (digits2_pos p) - 1) ≤ Zpos p < 2 ^ Zpos (digits2_pos p).
Proof.
  induction p as [p IH|p IH|]; simpl digits2_pos;
    rewrite ?Pos2Z.inj_succ; [| |simpl; lia].
  - replace (Z.succ (Zpos (digits2_pos p)) - 1) with (Z.succ (Zpos (digits2_pos p) - 1)) by lia.
    rewrite !Z.pow_succ_r by lia. lia.
  - replace (Z.succ (Zpos (digits2_pos p)) - 1) with (Z.succ (Zpos (digits2_pos p) - 1)) by lia.
    rewrite !Z.pow_succ_r by lia. lia.
Qed.

Lemma Zdigits2_bounds (m : Z) :
  0 < m → 2 ^ (Zdigits2 m - 1) ≤ m < 2 ^ Zdigits2 m.
Proof.
  destruct m as [|p|p]; [lia| |lia]. intros _. apply digits2_pos_bounds.
Qed.

Lemma Zdigits2_ge (m k : Z) : 0 < m → 2 ^ (k - 1) ≤ m → k ≤ Zdigits2 m.
Proof.
  intros Hm Hk. destruct (Zdigits2_bounds m Hm) as [_ Hlt].
  destruct (Z.le_gt_cases k (Zdigits2 m)) as [|Hgt]; [done|].
  assert (2 ^ Zdigits2 m ≤ 2 ^ (k - 1)) by (apply Z.pow_le_mono_r; lia). lia.
Qed.

Lemma Zdigits2_le (m k : Z) : 0 < m → 0 ≤ k → m ≤ 2 ^ k → Zdigits2 m ≤ k + 1.
Proof.
  intros Hm Hk0 Hk. destruct (Zdigits2_bounds m Hm) as [Hle _].
  destruct (Z.le_gt_cases (Zdigits2 m) (k + 1)) as [|Hgt]; [done|].
  assert (2 ^ (k + 1) ≤ 2 ^ (Zdigits2 m - 1)) by (apply Z.pow_le_mono_r; lia).
  rewrite Z.pow_add_r in * by lia. lia.
Qed.

Lemma shr_1_m (mrs : shr_record) :
  0 ≤ shr_m mrs → shr_m (shr_1 mrs) = shr_m mrs / 2.
Proof.
  rewrite <-Z.div2_div. destruct mrs as [[|[p|p|]|p] r s]; simpl; done || lia.
Qed.

Lemma shr_iter_m (p : positive) (mrs : shr_record) :
  0 ≤ shr_m mrs → shr_m (SpecFloat.iter_pos shr_1 p mrs) = shr_m mrs / 2 ^ Zpos p.
Proof.
  revert mrs. induction p as [p IH|p IH|]; intros mrs Hm; simpl SpecFloat.iter_pos.
  - assert (0 ≤ shr_m (shr_1 mrs)) as H1.
    { rewrite shr_1_m by done. apply Z.div_pos; lia. }
    assert (0 ≤ shr_m (SpecFloat.iter_pos shr_1 p (shr_1 mrs))) as H2.
    { rewrite IH by done. apply Z.div_pos; lia. }
    rewrite IH, IH, shr_1_m by done.
    rewrite !Z.div_div by lia. f_equal.
    replace (Zpos p~1) with (Zpos p + Zpos p + 1) by lia.
    rewrite !Z.pow_add_r, Z.pow_1_r by lia. ring.
  - assert (0 ≤ shr_m (SpecFloat.iter_pos shr_1 p mrs)) as H2.
    { rewrite IH by done. apply Z.div_pos; lia. }
    rewrite IH, IH by done. rewrite Z.div_div by lia. f_equal.
    replace (Zpos p~0) with (Zpos p + Zpos p) by lia.
    by rewrite Z.pow_add_r by lia.
  - by rewrite shr_1_m.
Qed.

(** The mantissa after [shr] is the quotient by the power of two that
    was shifted out. *)
Lemma shr_spec (mrs : shr_record) (e n : Z) :
  0 ≤ shr_m mrs →
  shr_m (shr mrs e n).1 = shr_m mrs / 2 ^ Z.max n 0
  ∧ (shr mrs e n).2 = e + Z.max n 0.
Proof.
  intros Hm. destruct n as [|p|p]; simpl.
  - rewrite Z.div_1_r. lia.
  - rewrite shr_iter_m by done. rewrite Z.max_l by lia. done.
  - rewrite Z.div_1_r. lia.
Qed.

Lemma shr_record_of_loc_m (m : Z) (l : location) : shr_m (shr_record_of_loc m l) = m.
Proof. by destruct l as [|[]]. Qed.

Lemma shr_fexp_spec (m e : Z) (l : location) :
  0 ≤ m →
  let n := Z.max (fexp prec emax (Zdigits2 m + e) - e) 0 in
  shr_m (shr_fexp prec emax m e l).1 = m / 2 ^ n
  ∧ (shr_fexp prec emax m e l).2 = e + n.
Proof.
  intros Hm n. unfold shr_fexp.
  destruct (shr_spec (shr_record_of_loc m l) e
              (fexp prec emax (Zdigits2 m + e) - e)) as [H1 H2].
  { by rewrite shr_record_of_loc_m. }
  by rewrite H1, H2, shr_record_of_loc_m.
Qed.

Lemma round_nearest_even_bounds (m : Z) (l : location) :
  m ≤ round_nearest_even m l ≤ m + 1.
Proof.
  destruct l as [|[]]; simpl; try lia. destruct (Z.even m); lia.
Qed.


(** In the normal range the shift leaves a full-width mantissa. *)
Lemma shr_fexp_normal (m e : Z) (l : location) :
  0 < prec → 0 < m → prec ≤ Zdigits2 m →
  emin prec emax ≤ Zdigits2 m + e - prec →
  (shr_fexp prec emax m e l).2 = e + (Zdigits2 m - prec)
  ∧ 2 ^ (prec - 1) ≤ shr_m (shr_fexp prec emax m e l).1 < 2 ^ prec.
Proof.
  intros Hprec Hm Hd He.
  destruct (shr_fexp_spec m e l ltac:(lia)) as [H1 H2].
  unfold fexp in H1, H2.
  replace (Z.max (Z.max (Zdigits2 m + e - prec) (emin prec emax) - e) 0)
    with (Zdigits2 m - prec) in H1, H2 by lia.
  rewrite H1, H2. split; [done|].
  destruct (Zdigits2_bounds m Hm) as [Hlo Hhi].
  assert (0 < 2 ^ (Zdigits2 m - prec)) as Hpow by (apply Z.pow_pos_nonneg; lia).
  split.
  - apply Z.div_le_lower_bound; [done|].
    rewrite <-Z.pow_add_r by lia.
    by replace (Zdigits2 m - prec + (prec - 1)) with (Zdigits2 m - 1) by lia.
  - apply Z.div_lt_upper_bound; [done|].
    rewrite <-Z.pow_add_r by lia.
    by replace (Zdigits2 m - prec + prec) with (Zdigits2 m) by lia.
Qed.

(** Rounding a positive mantissa of at least [prec] digits whose
    exponent lies within the normal range gives a positive finite
    number. *)
Lemma binary_round_aux_normal (m e : Z) (l : location) :
  0 < prec → 0 < m → prec ≤ Zdigits2 m →
  emin prec emax ≤ Zdigits2 m + e - prec →
  Zdigits2 m + e + 1 ≤ emax →
  ∃ m' e', binary_round_aux prec emax false m e l = S754_finite false m' e'.
Proof.
  intros Hprec Hm Hd Hlo Hhi. unfold binary_round_aux.
  destruct (shr_fexp_normal m e l Hprec Hm Hd Hlo) as [He1 Hm1].
  destruct (shr_fexp prec emax m e l) as [mrs1 e1]. simpl in He1, Hm1.
  pose proof (round_nearest_even_bounds (shr_m mrs1) (loc_of_shr_record mrs1)) as Hr.
  set (m2 := round_nearest_even _ _) in *.
  assert (0 < 2 ^ (prec - 1)) as Hpow by (apply Z.pow_pos_nonneg; lia).
  assert (0 < m2) as Hm2 by lia.
  assert (prec ≤ Zdigits2 m2) as Hd2lo by (apply Zdigits2_ge; lia).
  assert (Zdigits2 m2 ≤ prec + 1) as Hd2hi by (apply Zdigits2_le; lia).
  destruct (shr_fexp_normal m2 e1 loc_Exact Hprec Hm2 Hd2lo ltac:(lia))
    as [He2 Hm3].
  destruct (shr_fexp prec emax m2 e1 loc_Exact) as [mrs2 e2]. simpl in He2, Hm3.
  destruct (shr_m mrs2) as [|m3|m3]; [lia| |lia].
  rewrite (proj2 (Z.leb_le _ _)) by lia. by eexists _, _.
Qed.
End rounding_facts.

(** ** [int_truediv]: the quotient of a count by a total *)

(** A positive count divided by a total that is no smaller (and fits a
    Python list length) is a positive finite binary64 number: neither
    zero, nor infinite, nor an error. *)
Lemma int_truediv_finite (a b : nat) :
  1 ≤ a → a ≤ b → (Z.of_nat b < 2 ^ 63)%Z →
  ∃ m e, int_truediv a b = Ok (S754_finite false m e).
Proof.
  intros Ha Hab Hb. unfold int_truediv.
  destruct b as [|b']; [lia|]. destruct a as [|a']; [lia|].
  set (A := Z.of_nat (S a')). set (B := Z.of_nat (S b')).
  assert (0 < A ≤ B)%Z as HAB by (subst A B; lia).
  assert (B ≤ 2 ^ 63)%Z as HB by (subst B; lia).
  unfold SFdiv_core_binary.
  destruct (Zdigits2_bounds A ltac:(lia)) as [HAlo HAhi].
  destruct (Zdigits2_bounds B ltac:(lia)) as [HBlo HBhi].
  pose proof (Zdigits2_ge A 1 ltac:(lia) ltac:(simpl; lia)) as Hd1.
  pose proof (Zdigits2_le B 63 ltac:(lia) ltac:(lia) HB) as Hd2.
  assert (Zdigits2 A ≤ Zdigits2 B)%Z as Hd12.
  { apply Zdigits2_ge; lia. }
  set (d1 := Zdigits2 A) in *. set (d2 := Zdigits2 B) in *.
  replace (Z.min (fexp 53 1024 (d1 + 0 - (d2 + 0))) (0 - 0))
    with (d1 - d2 - 53)%Z by (unfold fexp, emin; lia).
  replace (0 - 0 - (d1 - d2 - 53))%Z with (53 + d2 - d1)%Z by lia.
  set (s := (53 + d2 - d1)%Z).
  assert (0 < s)%Z as Hs by (subst s; lia).
  assert (match s with
          | 0 => A
          | Z.pos _ => Z.shiftl A s
          | Z.neg _ => 0
          end = A * 2 ^ s)%Z as ->.
  { destruct s; [lia| |lia]. by rewrite Z.shiftl_mul_pow2 by lia. }
  destruct (Z.div_eucl (A * 2 ^ s) B) as [q r] eqn:Hqr.
  assert (q = (A * 2 ^ s) / B)%Z as Hq by (unfold Z.div; by rewrite Hqr).
  assert (0 < 2 ^ s)%Z as Hpows by (apply Z.pow_pos_nonneg; lia).
  assert (2 ^ 52 ≤ q)%Z as Hqlo.
  { rewrite Hq. apply Z.div_le_lower_bound; [lia|].
    assert (2 ^ (d1 - 1) * 2 ^ s = 2 ^ 52 * 2 ^ d2)%Z as Hpow.
    { rewrite <-!Z.pow_add_r by lia. f_equal. subst s. lia. }
    nia. }
  assert (q ≤ 2 ^ s)%Z as Hqhi.
  { rewrite Hq. apply Z.div_le_upper_bound; [lia|]. nia. }
  pose proof (Zdigits2_ge q 53 ltac:(lia) ltac:(simpl; lia)) as Hdqlo.
  pose proof (Zdigits2_le q s ltac:(lia) ltac:(lia) Hqhi) as Hdqhi.
  destruct (binary_round_aux_normal 53 1024 q (d1 - d2 - 53) (new_location B r))
    as (m & e & ->); [lia|lia|lia|unfold emin; lia|subst s; lia|].
  by exists m, e.
Qed.

(** ** [subsample_words]: the frequency table *)

Lemma occurrences_le_length (w : string) (words : list string) :
  occurrences w words ≤ length words.
Proof. apply length_filter. Qed.

Lemma Counter_counts (words : list string) (k : string) (n : nat) :
  (k, n) ∈ Counter words → 1 ≤ n ≤ length words.
Proof.
  intros Hin. destruct (Counter_spec words) as (_ & Hpos & _ & _).
  rewrite Forall_forall in Hpos. specialize (Hpos _ Hin). simpl in Hpos.
  apply Counter_elem in Hin as [_ ->].
  pose proof (occurrences_le_length k words). lia.
Qed.

(** Every entry of the frequency table is the quotient of the count of
    its word by the total, and a positive finite number. *)
Lemma word_freqs_spec (words : list string) :
  (Z.of_nat (length words) < 2 ^ 63)%Z →
  ∃ freqs, word_freqs words = Ok freqs
    ∧ Forall2 (λ wc wf, wf.1 = wc.1
                 ∧ int_truediv wc.2 (length words) = Ok wf.2
                 ∧ ∃ m e, wf.2 = S754_finite false m e)
        (Counter words) freqs.
Proof.
  intros Hlen. unfold word_freqs.
  assert (Forall (λ wc : string * nat, 1 ≤ wc.2 ≤ length words) (Counter words))
    as Hcounts.
  { apply Forall_forall. intros [k n] Hin. by eapply Counter_counts. }
  induction Hcounts as [|[k n] c Hn _ (freqs & Hfreqs & IH)]; simpl.
  - exists []. split; [done|constructor].
  - simpl in Hn.
    destruct (int_truediv_finite n (length words)) as (m & e & Hdiv); [lia..|].
    rewrite Hdiv. simpl. rewrite Hfreqs. simpl.
    exists ((k, S754_finite false m e) :: freqs). split; [done|].
    constructor; [|done]. simpl. split_and!; [done|done|by eexists _, _].
Qed.

Lemma word_freqs_nonzero (words : list string) (freqs : list (string * spec_float)) :
  (Z.of_nat (length words) < 2 ^ 63)%Z →
  word_freqs words = Ok freqs → Forall (λ wf, ¬ is_zero wf.2) freqs.
Proof.
  intros Hlen Hfreqs. destruct (word_freqs_spec words Hlen) as (freqs' & Heq & Hall).
  rewrite Hfreqs in Heq. injection Heq as <-.
  apply Forall2_Forall_r with (Q := λ wf, ¬ is_zero wf.2) in Hall; [done|].
  apply Forall_forall. intros wc _ wf (_ & _ & m & e & ->) [s Hs]. discriminate.
Qed.

(** ** [subsample_words]: the discard probabilities *)

Lemma discard_probability_zero (threshold freq : spec_float) :
  is_zero freq → discard_probability threshold freq = Raise ZeroDivisionError.
Proof. by intros [s ->]. Qed.

Lemma discard_probability_nonzero (threshold freq : spec_float) :
  ¬ is_zero freq →
  discard_probability threshold freq =
    Ok (f32_sub f32_one (f32_sqrt (f32_of_f64 (f64_div threshold freq)))).
Proof.
  intros Hnz. unfold discard_probability, float_div.
  destruct freq; try done. destruct Hnz. by eexists.
Qed.

Lemma prob_discard_of_zero (threshold : spec_float) (freqs : list (string * spec_float)) :
  Exists (λ wf, is_zero wf.2) freqs →
  prob_discard_of threshold freqs = Raise ZeroDivisionError.
Proof.
  unfold prob_discard_of.
  induction freqs as [|[w f] freqs IH]; intros Hex; [by apply Exists_nil in Hex|].
  simpl. destruct f as [s| | |s m e] eqn:Hf; try done.
  all: apply Exists_cons in Hex as [[? [=]]|Hex].
  all: rewrite discard_probability_nonzero by (intros [? [=]]).
  all: simpl; by rewrite (IH Hex).
Qed.

Lemma prob_discard_of_nonzero (threshold : spec_float) (freqs : list (string * spec_float)) :
  Forall (λ wf, ¬ is_zero wf.2) freqs →
  ∃ prob_discard, prob_discard_of threshold freqs = Ok prob_discard
    ∧ Forall2 (λ wf wp, wp.1 = wf.1
                 ∧ discard_probability threshold wf.2 = Ok wp.2)
        freqs prob_discard.
Proof.
  unfold prob_discard_of.
  induction 1 as [|[w f] freqs Hf _ (pd & Hpd & IH)]; simpl.
  - exists []. split; [done|constructor].
  - rewrite (discard_probability_nonzero _ _ Hf). simpl. rewrite Hpd. simpl.
    eexists (_ :: pd). split; [done|]. constructor; [|done]. simpl.
    by rewrite (discard_probability_nonzero _ _ Hf).
Qed.

Lemma train_words_of_no_division (vocab_to_int : gmap string nat)
    (prob_discard : list (string * spec_float)) (g : rng) (pos : nat)
    (words : list string) :
  train_words_of vocab_to_int prob_discard g pos words ≠ Raise ZeroDivisionError.
Proof.
  assert (∀ k, items_get prob_discard k ≠ Raise ZeroDivisionError) as Hget.
  { intros k. induction prob_discard as [|[k' v] pd IH]; simpl; [done|].
    by case_decide. }
  revert pos. induction words as [|w words IH]; intros pos; simpl; [done|].
  specialize (Hget w). destruct (items_get prob_discard w) as [p|e]; simpl;
    [|congruence].
  destruct (keeps _ p).
  - unfold dict_get. destruct (vocab_to_int !! w); simpl; [|done].
    specialize (IH (S pos)).
    destruct (train_words_of _ _ _ _ words); simpl; [done|congruence].
  - apply IH.
Qed.

(** C7. The division [threshold / freq] raises [ZeroDivisionError] as
    soon as a frequency of the table is a zero, which then ends
    [subsample_words], and is carried out for every entry when none is;
    the frequencies that [subsample_words] computes from its input are
    never zero, so the call never raises [ZeroDivisionError]. *)
Theorem subsample_words_zero_frequency (words : list string)
    (vocab_to_int : gmap string nat) (threshold : spec_float) (g : rng) (pos : nat)
    (Hlen : (Z.of_nat (length words) < 2 ^ 63)%Z) :
  (∀ freqs, Exists (λ wf, is_zero wf.2) freqs →
     prob_discard_of threshold freqs = Raise ZeroDivisionError)
  ∧ (∀ freqs, word_freqs words = Ok freqs →
       Exists (λ wf, is_zero wf.2) freqs →
       subsample_words words vocab_to_int threshold g pos = Raise ZeroDivisionError)
  ∧ (∀ freqs, Forall (λ wf, ¬ is_zero wf.2) freqs →
       ∃ prob_discard, prob_discard_of threshold freqs = Ok prob_discard)
  ∧ (∃ freqs, word_freqs words = Ok freqs
       ∧ Forall (λ wf, ¬ is_zero wf.2) freqs)
  ∧ subsample_words words vocab_to_int threshold g pos ≠ Raise ZeroDivisionError.
Proof.
  destruct (word_freqs_spec words Hlen) as (freqs & Hfreqs & _).
  pose proof (word_freqs_nonzero words freqs Hlen Hfreqs) as Hnz.
  split_and!.
  - intros fs. apply prob_discard_of_zero.
  - intros fs Hfs Hex. unfold subsample_words. rewrite Hfs. simpl.
    by rewrite (prob_discard_of_zero threshold fs Hex).
  - intros fs Hfs. destruct (prob_discard_of_nonzero threshold fs Hfs) as (pd & ? & _).
    by exists pd.
  - by exists freqs.
  - unfold subsample_words. rewrite Hfreqs. simpl.
    destruct (prob_discard_of_nonzero threshold freqs Hnz) as (pd & -> & _). simpl.
    pose proof (train_words_of_no_division vocab_to_int pd g pos words) as Htw.
    destruct (train_words_of _ _ _ _ words); simpl; [done|congruence].
Qed.

Lemma subsample_words_zero_frequency_witness :
  (∀ freqs, Exists (λ wf, is_zero wf.2) freqs →
     prob_discard_of f64_one freqs = Raise ZeroDivisionError)
  ∧ (∀ freqs, word_freqs ["a"; "b"; "a"]%string = Ok freqs →
       Exists (λ wf, is_zero wf.2) freqs →
       subsample_words ["a"; "b"; "a"]%string {["a"%string := 0; "b"%string := 1]}
         f64_one (λ _, 0%Z) 0 = Raise ZeroDivisionError)
  ∧ (∀ freqs, Forall (λ wf, ¬ is_zero wf.2) freqs →
       ∃ prob_discard, prob_discard_of f64_one freqs = Ok prob_discard)
  ∧ (∃ freqs, word_freqs ["a"; "b"; "a"]%string = Ok freqs
       ∧ Forall (λ wf, ¬ is_zero wf.2) freqs)
  ∧ subsample_words ["a"; "b"; "a"]%string {["a"%string := 0; "b"%string := 1]}
      f64_one (λ _, 0%Z) 0 ≠ Raise ZeroDivisionError.
Proof.
  apply (subsample_words_zero_frequency ["a"; "b"; "a"]%string). simpl. lia.
Defined.

(** ** The frequencies over exact arithmetic *)





(** ** [subsample_words]: which tokens are kept *)






(** ** [cosine_similarity] *)

Lemma norm_zero_row (row : list spec_float) :
  Forall is_zero row → norm row = S754_zero false.
Proof.
  intros Hrow. unfold norm.
  assert (foldl (λ acc x, f32_add acc (f32_mul x x)) f32_zero row = f32_zero) as ->;
    [|done].
  induction Hrow as [|x row [s ->] _ IH]; simpl; [done|].
  by destruct s.
Qed.

Lemma normalize_zero_row (row : list spec_float) :
  Forall is_zero row →
  (λ v, f32_div v (norm row)) <$> row = replicate (length row) S754_nan.
Proof.
  intros Hrow. rewrite (norm_zero_row row Hrow).
  induction Hrow as [|x row [s ->] _ IH]; csimpl; [done|]. by rewrite IH.
Qed.

Lemma dot_nan_acc (l : list (spec_float * spec_float)) :
  Forall (λ xy, xy.2 = S754_nan) l →
  foldl (λ acc '(x, y), f32_add acc (f32_mul x y)) S754_nan l = S754_nan.
Proof.
  induction 1 as [|[x y] l Hy _ IH]; simpl; [done|].
  simpl in Hy. subst y. by destruct x.
Qed.

(** A dot product with a row of NaNs is a NaN, unless it is empty. *)
Lemma dot_nan (a : list spec_float) (n : nat) :
  0 < n → length a = n → dot a (replicate n S754_nan) = S754_nan.
Proof.
  intros Hn Ha. unfold dot.
  destruct a as [|x a]; [simpl in Ha; lia|]. destruct n as [|n]; [lia|].
  cbn [replicate zip zip_with foldl].
  assert (f32_add f32_zero (f32_mul x S754_nan) = S754_nan) as ->
    by by destruct x.
  apply dot_nan_acc. apply Forall_forall.
  intros [x' y'] Hin%elem_of_zip_r. simpl in *.
  by apply elem_of_replicate in Hin as [-> _].
Qed.

Lemma randint_from_zero (high raw : Z) :
  (0 < high)%Z → randint 0 high raw = Ok (raw mod high)%Z.
Proof.
  intros Hhigh. unfold randint. rewrite decide_True by done.
  by rewrite Z.sub_0_r, Z.add_0_l.
Qed.

Lemma randint_draws (high : Z) (g : rng) (pos : nat) (l : list nat) :
  (0 < high)%Z →
  ∃ examples, mapM (λ i, randint 0 high (g (pos + i))) l = Ok examples
    ∧ length examples = length l
    ∧ Forall (λ i, 0 ≤ i < high)%Z examples.
Proof.
  intros Hhigh. induction l as [|i l (ex & Hex & Hlen & Hall)]; simpl.
  - exists []. by split_and!.
  - rewrite randint_from_zero by done. simpl. rewrite Hex. simpl.
    eexists (_ :: ex). split_and!; [done|by rewrite <-Hlen|].
    constructor; [|done].
    pose proof (Z.mod_pos_bound (g (pos + i)) high). lia.
Qed.

Lemma randint_n_returns (high size : Z) (g : rng) (pos : nat) :
  (0 ≤ size)%Z → (0 < high)%Z →
  ∃ examples, randint_n 0 high size g pos = Ok examples
    ∧ length examples = Z.to_nat size
    ∧ Forall (λ i, 0 ≤ i < high)%Z examples.
Proof.
  intros Hsize Hhigh. unfold randint_n.
  rewrite decide_False, decide_True by lia.
  destruct (randint_draws high g pos (seq 0 (Z.to_nat size)) Hhigh)
    as (ex & Hex & Hlen & Hall).
  rewrite length_seq in Hlen. by exists ex.
Qed.

Lemma embedding_lookup_returns (weight : matrix) (indices : list Z) :
  Forall (λ i, 0 ≤ i < Z.of_nat (length weight))%Z indices →
  ∃ vectors, embedding_lookup weight indices = Ok vectors
    ∧ length vectors = length indices
    ∧ Forall (λ v, v ∈ weight) vectors.
Proof.
  unfold embedding_lookup.
  induction 1 as [|i l Hi _ (vs & Hvs & Hlen & Hall)]; simpl.
  - exists []. by split_and!.
  - rewrite decide_True by lia.
    destruct (lookup_lt_is_Some_2 weight (Z.to_nat i)) as [row Hrow]; [lia|].
    rewrite Hrow. simpl. rewrite Hvs. simpl.
    exists (row :: vs). split_and!; [done|by rewrite <-Hlen|].
    constructor; [|done]. by eapply list_elem_of_lookup_2.
Qed.

(** C8, as the code has it. [cosine_similarity] has no check on the
    norms: when the sampled indices are in range it returns normally,
    and if row [j] of the embedding matrix is a zero vector, every row
    of the returned similarity matrix holds a NaN in column [j]. *)
Theorem cosine_similarity_zero_row (weight : matrix) (dim j : nat) (row : list spec_float)
    (valid_size valid_window : Z) (g : rng) (pos : nat)
    (Hdim : 0 < dim) (Hshape : Forall (λ r, length r = dim) weight)
    (Hrow : weight !! j = Some row) (Hzero : Forall is_zero row)
    (Hsize : (0 ≤ valid_size)%Z)
    (Hwindow : (0 < valid_window ≤ Z.of_nat (length weight))%Z) :
  ∃ valid_examples similarities,
    cosine_similarity weight valid_size valid_window g pos
      = Ok (valid_examples, similarities)
    ∧ length similarities = Z.to_nat valid_size
    ∧ Forall (λ sims, sims !! j = Some S754_nan) similarities.
Proof.
  destruct (randint_n_returns valid_window valid_size g pos)
    as (examples & Hex & Hexlen & Hexall); [lia..|].
  destruct (embedding_lookup_returns weight examples) as (vs & Hvs & Hvslen & Hvsall).
  { eapply Forall_impl; [exact Hexall|]. simpl. intros; lia. }
  unfold cosine_similarity. rewrite Hex. simpl. rewrite Hvs. simpl.
  eexists _, _. split; [done|]. split.
  - unfold matmul_T, normalize_rows. rewrite !length_fmap. lia.
  - unfold matmul_T. apply Forall_fmap, Forall_forall. intros ra Hra. simpl.
    rewrite list_lookup_fmap. unfold normalize_rows at 1.
    rewrite list_lookup_fmap, Hrow. simpl. f_equal.
    rewrite (normalize_zero_row row Hzero).
    rewrite Forall_forall in Hshape.
    apply dot_nan; [rewrite (Hshape row); [done|by eapply list_elem_of_lookup_2]|].
    unfold normalize_rows in Hra.
    apply list_elem_of_fmap in Hra as (v & -> & Hv). rewrite length_fmap.
    rewrite Forall_forall in Hvsall.
    rewrite (Hshape v (Hvsall v Hv)). symmetry. apply Hshape.
    by eapply list_elem_of_lookup_2.
Qed.

Lemma cosine_similarity_zero_row_witness :
  ∃ valid_examples similarities,
    cosine_similarity [[f32_one; f32_zero]; [f32_zero; f32_zero]] 2 2
      (λ n, Z.of_nat n) 0 = Ok (valid_examples, similarities)
    ∧ length similarities = Z.to_nat 2
    ∧ Forall (λ sims, sims !! 1 = Some S754_nan) similarities.
Proof.
  apply (cosine_similarity_zero_row [[f32_one; f32_zero]; [f32_zero; f32_zero]]
           2 1 [f32_zero; f32_zero] 2 2 (λ n, Z.of_nat n) 0).
  - lia.
  - repeat constructor.
  - reflexivity.
  - repeat constructor; by exists false.
  - lia.
  - simpl. lia.
Defined.

(** C8, refuted as stated: on an embedding whose only row is the zero
    vector the call does not fail, it returns a NaN similarity. *)
Lemma zero_embedding_returns_nan :
  cosine_similarity [[f32_zero]] 1 1 (λ _, 0%Z) 0 = Ok ([0%Z], [[S754_nan]])
  ∧ ¬ ∃ e, cosine_similarity [[f32_zero]] 1 1 (λ _, 0%Z) 0 = Raise e.
Proof.
  split; [reflexivity|]. intros [e He]. discriminate He.
Qed.

(** * Further properties *)

(** ** [get_target]: the context as two slices *)

Section get_target_slices.
Context {A : Type}.
Implicit Types (words : list A) (idx r s : nat).

Lemma py_slice_take_drop words (a b : nat) :
  py_slice words (Z.of_nat a) (Z.of_nat b) = take (b - a) (drop a words).
Proof.
  unfold py_slice, slice_bound. rewrite !decide_False by lia.
  rewrite !Z2Nat.inj_min, !Nat2Z.id.
  destruct (decide (b ≤ length words)).
  - rewrite (Nat.min_l b) by lia. destruct (decide (a ≤ b)).
    + rewrite (Nat.min_l a) by lia. rewrite take_drop_commute. f_equal. f_equal. lia.
    + replace (b - a) with 0 by lia. rewrite take_0.
      apply drop_ge. rewrite length_take. lia.
  - rewrite (Nat.min_r b) by lia. rewrite (take_ge words (length words)) by lia.
    destruct (decide (a ≤ length words)).
    + rewrite (Nat.min_l a) by lia. symmetry. apply take_ge.
      rewrite length_drop. lia.
    + rewrite (Nat.min_r a) by lia. rewrite !drop_ge by lia. by rewrite take_nil.
Qed.

Lemma countdown_S r :
  (λ i : nat, Z.of_nat (S r) - Z.of_nat i)%Z <$> seq 0 (S r)
  = Z.of_nat (S r) :: ((λ i : nat, Z.of_nat r - Z.of_nat i)%Z <$> seq 0 r).
Proof.
  simpl seq. rewrite fmap_cons, <-fmap_S_seq, <-list_fmap_compose.
  f_equal; try lia. apply list_fmap_ext. intros; simpl; lia.
Qed.

Lemma countup_S r s :
  (λ i : nat, Z.of_nat s + Z.of_nat i)%Z <$> seq 0 (S r)
  = Z.of_nat s :: ((λ i : nat, Z.of_nat (S s) + Z.of_nat i)%Z <$> seq 0 r).
Proof.
  simpl seq. rewrite fmap_cons, <-fmap_S_seq, <-list_fmap_compose.
  f_equal; try lia. apply list_fmap_ext. intros; simpl; lia.
Qed.

Lemma back_words_countdown words idx r :
  idx < length words →
  mapM (λ n, py_index words (Z.of_nat idx - n))
       (filter (λ n, 0 ≤ Z.of_nat idx - n)%Z
          ((λ i : nat, Z.of_nat r - Z.of_nat i)%Z <$> seq 0 r))
  = Ok (take (idx - (idx - r)) (drop (idx - r) words)).
Proof.
  intros Hidx. induction r as [|r IH].
  - simpl. by replace (idx - (idx - 0)) with 0 by lia.
  - rewrite countdown_S, filter_cons. case_decide as Hle.
    + destruct (py_index_Ok words (Z.of_nat idx - Z.of_nat (S r)))
        as (x & Hx & Hlook); [lia|].
      replace (Z.to_nat (Z.of_nat idx - Z.of_nat (S r))) with (idx - S r) in Hlook by lia.
      simpl mapM. rewrite Hx, IH. simpl. f_equal.
      rewrite (drop_S words x (idx - S r) Hlook).
      replace (idx - (idx - S r)) with (S r) by lia.
      replace (idx - (idx - r)) with r by lia.
      replace (S (idx - S r)) with (idx - r) by lia. done.
    + rewrite IH. f_equal.
      replace (idx - S r) with 0 by lia. by replace (idx - r) with 0 by lia.
Qed.

Lemma front_words_countup words idx r s :
  mapM (λ n, py_index words (Z.of_nat idx + n))
       (filter (λ n, Z.of_nat idx + n < Z.of_nat (length words))%Z
          ((λ i : nat, Z.of_nat s + Z.of_nat i)%Z <$> seq 0 r))
  = Ok (take r (drop (idx + s) words)).
Proof.
  revert s. induction r as [|r IH]; intros s.
  - done.
  - rewrite countup_S, filter_cons. case_decide as Hlt.
    + destruct (py_index_Ok words (Z.of_nat idx + Z.of_nat s))
        as (x & Hx & Hlook); [lia|].
      replace (Z.to_nat (Z.of_nat idx + Z.of_nat s)) with (idx + s) in Hlook by lia.
      simpl mapM. rewrite Hx, IH. simpl. f_equal.
      rewrite (drop_S words x (idx + s) Hlook).
      by replace (idx + S s) with (S (idx + s)) by lia.
    + rewrite IH. rewrite !drop_ge by lia. by rewrite !take_nil.
Qed.

Lemma back_words_slice words idx (R : Z) :
  idx < length words → (0 ≤ R)%Z →
  back_words words (Z.of_nat idx) R
  = Ok (take (idx - (idx - Z.to_nat R)) (drop (idx - Z.to_nat R) words)).
Proof.
  intros Hidx HR. unfold back_words. rewrite range_down by done. simpl.
  pose proof (back_words_countdown words idx (Z.to_nat R) Hidx) as Hback.
  by rewrite Z2Nat.id in Hback by done.
Qed.

Lemma front_words_slice words idx (R : Z) :
  (0 ≤ R)%Z →
  front_words words (Z.of_nat idx) R = Ok (take (Z.to_nat R) (drop (S idx) words)).
Proof.
  intros HR. unfold front_words. rewrite range_up by done. simpl.
  change 1%Z with (Z.of_nat 1). rewrite front_words_countup.
  by replace (idx + 1) with (S idx) by lia.
Qed.

(** For a valid index and window, the value of [get_target] in closed
    form: the window size is [r = window_of W raw], and the context is
    the [min r idx] words before the target followed by the (up to) [r]
    words after it. *)
Lemma get_target_take_drop words idx (W raw : Z) :
  idx < length words → (1 ≤ W)%Z →
  let r := Z.to_nat (window_of W raw) in
  get_target words (Z.of_nat idx) W raw
  = Ok (take (idx - (idx - r)) (drop (idx - r) words)
        ++ take r (drop (S idx) words)).
Proof.
  intros Hidx HW r. unfold get_target, randint. rewrite decide_True by lia.
  simpl. replace (W + 1 - 1)%Z with W by lia. fold (window_of W raw).
  pose proof (Z.mod_pos_bound raw W ltac:(lia)) as Hmod.
  rewrite back_words_slice by (unfold window_of; lia). simpl.
  by rewrite front_words_slice by (unfold window_of; lia).
Qed.
End get_target_slices.

(** X1. For a valid index and a window size [W ≥ 1], [get_target]
    returns [words[max(idx-R, 0):idx] + words[idx+1:idx+R+1]], where
    [R], the window size it drew, lies in [[1, W]]. *)
Theorem get_target_slices {A} (words : list A) (idx : nat) (W raw : Z)
    (Hidx : idx < length words) (HW : (1 ≤ W)%Z) :
  let R := window_of W raw in
  (1 ≤ R ≤ W)%Z
  ∧ get_target words (Z.of_nat idx) W raw
    = Ok (py_slice words (Z.max (Z.of_nat idx - R) 0) (Z.of_nat idx)
          ++ py_slice words (Z.of_nat idx + 1) (Z.of_nat idx + R + 1)).
Proof.
  intros R. pose proof (Z.mod_pos_bound raw W ltac:(lia)) as Hmod.
  assert (1 ≤ R ≤ W)%Z as HR by (subst R; unfold window_of; lia).
  split; [done|]. rewrite get_target_take_drop by done. fold R.
  replace (Z.max (Z.of_nat idx - R) 0) with (Z.of_nat (idx - Z.to_nat R)) by lia.
  replace (Z.of_nat idx + 1)%Z with (Z.of_nat (S idx)) by lia.
  replace (Z.of_nat idx + R + 1)%Z with (Z.of_nat (S idx + Z.to_nat R)) by lia.
  rewrite !py_slice_take_drop. do 3 f_equal. lia.
Qed.

Lemma get_target_slices_witness :
  (1 ≤ window_of 2 7 ≤ 2)%Z
  ∧ get_target ["a"; "b"; "c"; "d"; "e"]%string (Z.of_nat 3) 2 7
    = Ok (py_slice ["a"; "b"; "c"; "d"; "e"]%string
            (Z.max (Z.of_nat 3 - window_of 2 7) 0) (Z.of_nat 3)
          ++ py_slice ["a"; "b"; "c"; "d"; "e"]%string
               (Z.of_nat 3 + 1) (Z.of_nat 3 + window_of 2 7 + 1)).
Proof.
  apply (get_target_slices ["a"; "b"; "c"; "d"; "e"]%string 3 2 7); simpl; lia.
Defined.

(** X2. For a valid index and a window size [W ≥ 1], [get_target]
    returns at most [2 W] words and fewer words than the list has; it
    returns no word at all exactly when the list has a single word. *)
Theorem get_target_size {A} (words : list A) (idx : nat) (W raw : Z)
    (Hidx : idx < length words) (HW : (1 ≤ W)%Z) :
  ∃ res, get_target words (Z.of_nat idx) W raw = Ok res
    ∧ (Z.of_nat (length res) ≤ 2 * W)%Z
    ∧ length res < length words
    ∧ (res = [] ↔ length words = 1).
Proof.
  pose proof (Z.mod_pos_bound raw W ltac:(lia)) as Hmod.
  eexists. split; [by apply get_target_take_drop|].
  set (r := Z.to_nat (window_of W raw)).
  assert (1 ≤ r ∧ (Z.of_nat r ≤ W)%Z) as [Hr1 HrW]
    by (subst r; unfold window_of; lia).
  rewrite length_app, !length_take, !length_drop. split_and!; [lia..|].
  rewrite <-length_zero_iff_nil, length_app, !length_take, !length_drop. lia.
Qed.

Lemma get_target_size_witness :
  ∃ res, get_target ["a"; "b"; "c"]%string (Z.of_nat 2) 5 11 = Ok res
    ∧ (Z.of_nat (length res) ≤ 2 * 5)%Z
    ∧ length res < length ["a"; "b"; "c"]%string
    ∧ (res = [] ↔ length ["a"; "b"; "c"]%string = 1).
Proof.
  apply (get_target_size ["a"; "b"; "c"]%string 2 5 11); simpl; lia.
Defined.

(** ** [get_batches]: the batches *)

Lemma elem_of_take_drop {A} (l : list A) (n m : nat) (x : A) :
  x ∈ take n (drop m l) → x ∈ l.
Proof.
  intros (i & Hi & _)%elem_of_take. rewrite lookup_drop in Hi.
  by eapply list_elem_of_lookup_2.
Qed.

Lemma get_target_elements {A} (words : list A) (idx : nat) (W raw : Z) :
  idx < length words → (1 ≤ W)%Z →
  ∃ res, get_target words (Z.of_nat idx) W raw = Ok res ∧ Forall (λ x, x ∈ words) res.
Proof.
  intros Hidx HW. eexists. split; [by apply get_target_take_drop|].
  apply Forall_app. split; apply Forall_forall; intros x Hx;
    by eapply elem_of_take_drop.
Qed.

(** The invariant of the loop over the positions of a chunk: the two
    accumulators grow by the same number of entries, all of them tokens
    of the chunk, and every position reads one draw. *)
Lemma batch_loop_spec (current_words : list Z) (items : list (nat * Z))
    (W : Z) (g : rng) (pos : nat) (inputs targets : list Z) :
  (1 ≤ W)%Z →
  Forall (λ it, current_words !! it.1 = Some it.2) items →
  ∃ ins tgs,
    batch_loop current_words items W g pos inputs targets
      = Ok ((inputs ++ ins, targets ++ tgs), pos + length items)
    ∧ length ins = length tgs
    ∧ Forall (λ x, x ∈ current_words) ins
    ∧ Forall (λ x, x ∈ current_words) tgs.
Proof.
  intros HW Hitems. revert pos inputs targets.
  induction Hitems as [|[i w] items Hi _ IH]; intros pos inputs targets; simpl.
  - exists [], []. rewrite !app_nil_r, Nat.add_0_r. by split_and!.
  - simpl in Hi.
    destruct (get_target_elements current_words i W (g pos))
      as (tw & -> & Htw); [by eapply lookup_lt_Some|done|]. simpl.
    destruct (IH (S pos) (inputs ++ replicate (length tw) w) (targets ++ tw))
      as (ins & tgs & -> & Hlen & Hins & Htgs).
    exists (replicate (length tw) w ++ ins), (tw ++ tgs).
    rewrite !app_assoc. split_and!.
    + do 2 f_equal. lia.
    + rewrite !length_app, length_replicate. lia.
    + apply Forall_app. split; [|done]. apply Forall_replicate.
      by eapply list_elem_of_lookup_2.
    + by apply Forall_app.
Qed.

Lemma enumerate_lookup {A} (l : list A) :
  Forall (λ it, l !! it.1 = Some it.2) (enumerate l).
Proof.
  apply Forall_forall. by intros [i x] (j & y & [= -> ->] & Hj)%elem_of_lookup_imap.
Qed.

Lemma make_batch_spec (current_words : list Z) (W : Z) (g : rng) (pos : nat) :
  (1 ≤ W)%Z →
  ∃ ins tgs,
    make_batch current_words W g pos = Ok ((ins, tgs), pos + length current_words)
    ∧ length ins = length tgs
    ∧ Forall (λ x, x ∈ current_words) ins
    ∧ Forall (λ x, x ∈ current_words) tgs.
Proof.
  intros HW. unfold make_batch.
  destruct (batch_loop_spec current_words (enumerate current_words) W g pos [] [] HW
              (enumerate_lookup current_words)) as (ins & tgs & Heq & Hrest).
  exists ins, tgs. split; [|done]. rewrite Heq. unfold enumerate.
  by rewrite length_imap.
Qed.

Lemma batches_of_spec (words : list Z) (B W : Z) (g : rng) (pos : nat) (idxs : list Z) :
  (1 ≤ W)%Z →
  ∃ bs, batches_of words B W g pos idxs = Trace bs None
    ∧ Forall2 (λ idx b, batch_of_chunk (py_slice words idx (idx + B)) b) idxs bs.
Proof.
  intros HW. revert pos. induction idxs as [|idx idxs IH]; intros pos; simpl.
  - exists []. split; [done|constructor].
  - destruct (make_batch_spec (py_slice words idx (idx + B)) W g pos HW)
      as (ins & tgs & -> & Hb).
    destruct (IH (pos + length (py_slice words idx (idx + B)))) as (bs & -> & Hbs).
    exists ((ins, tgs) :: bs). split; [done|]. by constructor.
Qed.

Lemma range_steps (len B : Z) :
  (1 ≤ B)%Z →
  range 0 len B = Ok ((λ i : nat, Z.of_nat i * B)%Z <$> seq 0 (chunk_count len B)).
Proof.
  intros HB. unfold range, chunk_count. rewrite decide_True by lia.
  replace (len - 0 + B - 1)%Z with (len + B - 1)%Z by lia.
  f_equal.
Qed.

(** X3. With [batch_size = B ≥ 1] and [window_size = W ≥ 1],
    [get_batches] ends without an exception after yielding one batch
    per chunk, [ceil(len / B)] in all; in the batch of chunk [k] the
    inputs and the targets have the same length and are all tokens of
    [words[k*B : k*B + B]]: no pair crosses a chunk boundary. *)
Theorem get_batches_shape (words : list Z) (B W : Z) (g : rng) (pos : nat)
    (HB : (1 ≤ B)%Z) (HW : (1 ≤ W)%Z) :
  ∃ bs,
    get_batches words B W g pos = Trace bs None
    ∧ length bs = chunk_count (Z.of_nat (length words)) B
    ∧ ∀ k b, bs !! k = Some b →
        batch_of_chunk (py_slice words (Z.of_nat k * B) (Z.of_nat k * B + B)) b.
Proof.
  unfold get_batches. rewrite range_steps by done.
  set (n := chunk_count _ _).
  destruct (batches_of_spec words B W g pos
              ((λ i : nat, Z.of_nat i * B)%Z <$> seq 0 n) HW) as (bs & -> & Hbs).
  exists bs. split; [done|].
  pose proof (Forall2_length _ _ _ Hbs) as Hlen.
  rewrite length_fmap, length_seq in Hlen. split; [done|].
  intros k b Hk.
  destruct (Forall2_lookup_r _ _ _ _ _ Hbs Hk) as (idx & Hidx & Hb).
  rewrite list_lookup_fmap in Hidx.
  destruct (seq 0 n !! k) as [k'|] eqn:Hseq; [|done].
  apply lookup_seq in Hseq as [-> _]. simpl in Hidx. by injection Hidx as <-.
Qed.

Lemma get_batches_shape_witness :
  ∃ bs,
    get_batches [7; 8; 9; 7; 8]%Z 2 3 (λ n, Z.of_nat n) 0 = Trace bs None
    ∧ length bs = chunk_count (Z.of_nat (length [7; 8; 9; 7; 8]%Z)) 2
    ∧ ∀ k b, bs !! k = Some b →
        batch_of_chunk
          (py_slice [7; 8; 9; 7; 8]%Z (Z.of_nat k * 2) (Z.of_nat k * 2 + 2)) b.
Proof.
  apply (get_batches_shape [7; 8; 9; 7; 8]%Z 2 3 (λ n, Z.of_nat n) 0); lia.
Defined.

Lemma concat_chunks {A} (l : list A) (b n : nat) :
  concat ((λ k, take b (drop (k * b) l)) <$> seq 0 n) = take (n * b) l.
Proof.
  induction n as [|n IH]; [done|].
  rewrite seq_S, fmap_app, concat_app, IH. simpl. rewrite app_nil_r.
  rewrite take_take_drop. f_equal. lia.
Qed.

(** X4. The chunks that [get_batches] slices for [batch_size = B ≥ 1],
    taken at the start indices [range(0, len(words), B)], are
    consecutive and cover the list: their concatenation is [words]. *)
Theorem get_batches_chunks_cover (words : list Z) (B : Z) (HB : (1 ≤ B)%Z) :
  ∃ idxs,
    range 0 (Z.of_nat (length words)) B = Ok idxs
    ∧ concat ((λ idx, py_slice words idx (idx + B)) <$> idxs) = words.
Proof.
  eexists. split; [by apply range_steps|].
  set (n := chunk_count _ _). rewrite <-list_fmap_compose.
  rewrite (list_fmap_ext _ (λ k, take (Z.to_nat B) (drop (k * Z.to_nat B) words))).
  - rewrite concat_chunks, take_ge; [done|]. subst n. unfold chunk_count.
    pose proof (Z.div_mod (Z.of_nat (length words) + B - 1) B ltac:(lia)) as Hdm.
    pose proof (Z.mod_pos_bound (Z.of_nat (length words) + B - 1) B ltac:(lia)) as Hr.
    pose proof (Z.div_pos (Z.of_nat (length words) + B - 1) B ltac:(lia) ltac:(lia)).
    nia.
  - intros i k _. simpl.
    replace (Z.of_nat k * B)%Z with (Z.of_nat (k * Z.to_nat B)) by lia.
    replace (Z.of_nat (k * Z.to_nat B) + B)%Z
      with (Z.of_nat (k * Z.to_nat B + Z.to_nat B)) by lia.
    rewrite py_slice_take_drop. f_equal. lia.
Qed.

Lemma get_batches_chunks_cover_witness :
  ∃ idxs,
    range 0 (Z.of_nat (length [7; 8; 9; 7; 8]%Z)) 2 = Ok idxs
    ∧ concat ((λ idx, py_slice [7; 8; 9; 7; 8]%Z idx (idx + 2)) <$> idxs)
      = [7; 8; 9; 7; 8]%Z.
Proof.
  apply (get_batches_chunks_cover [7; 8; 9; 7; 8]%Z 2). lia.
Defined.

Lemma make_batch_singleton (x : Z) (W : Z) (g : rng) (pos : nat) :
  (1 ≤ W)%Z → make_batch [x] W g pos = Ok (([], []), S pos).
Proof.
  intros HW. unfold make_batch. simpl.
  change 0%Z with (Z.of_nat 0).
  rewrite (get_target_take_drop [x] 0 W (g pos)) by (simpl; lia || done).
  simpl. by rewrite take_nil.
Qed.

Lemma batches_of_singletons (words : list Z) (B W : Z) (g : rng) (pos : nat)
    (idxs : list Z) :
  (1 ≤ W)%Z →
  Forall (λ idx, length (py_slice words idx (idx + B)) = 1) idxs →
  batches_of words B W g pos idxs = Trace (replicate (length idxs) ([], [])) None.
Proof.
  intros HW Hidxs. revert pos.
  induction Hidxs as [|idx idxs Hidx _ IH]; intros pos; simpl; [done|].
  destruct (py_slice words idx (idx + B)) as [|x [|y chunk]]; try done.
  rewrite make_batch_singleton by done. by rewrite IH.
Qed.

(** X5. With [batch_size = 1] (and a window size [W ≥ 1]) every chunk
    holds a single token, which has no context inside its chunk:
    [get_batches] yields [len(words)] batches and every one of them is
    the empty pair [([], [])]. *)
Theorem get_batches_batch_size_one (words : list Z) (W : Z) (g : rng) (pos : nat)
    (HW : (1 ≤ W)%Z) :
  get_batches words 1 W g pos = Trace (replicate (length words) ([], [])) None.
Proof.
  unfold get_batches. rewrite range_steps by done.
  replace (chunk_count (Z.of_nat (length words)) 1) with (length words).
  2:{ unfold chunk_count. rewrite Z.div_1_r. lia. }
  rewrite batches_of_singletons; [by rewrite length_fmap, length_seq|done|].
  apply Forall_fmap, Forall_forall. intros k [_ Hk]%elem_of_seq. simpl.
  replace (Z.of_nat k * 1)%Z with (Z.of_nat k) by lia.
  replace (Z.of_nat k + 1)%Z with (Z.of_nat (S k)) by lia.
  rewrite py_slice_take_drop, length_take, length_drop. lia.
Qed.

Lemma get_batches_batch_size_one_witness :
  get_batches [4; 5; 6]%Z 1 5 (λ _, 2%Z) 0
  = Trace (replicate (length [4; 5; 6]%Z) ([], [])) None.
Proof.
  apply (get_batches_batch_size_one [4; 5; 6]%Z 5 (λ _, 2%Z) 0). lia.
Defined.

(** X6. Arguments outside the domain of [get_batches]: a batch size of
    0 ends the generator with [ValueError] (the step of [range]), a
    negative batch size makes it yield nothing at all, without an
    exception, and a window size below 1 on a non-empty list ends it
    with the [RuntimeError] of [torch.randint] before the first batch. *)
Theorem get_batches_invalid_arguments (words : list Z) (B W : Z) (g : rng) (pos : nat) :
  get_batches words 0 W g pos = Trace [] (Some ValueError)
  ∧ ((B < 0)%Z → get_batches words B W g pos = Trace [] None)
  ∧ ((1 ≤ B)%Z → (W < 1)%Z → words ≠ [] →
       get_batches words B W g pos = Trace [] (Some RuntimeError)).
Proof.
  split_and!.
  - done.
  - intros HB. unfold get_batches, range.
    rewrite decide_False, decide_True by lia.
    replace (Z.to_nat _) with 0; [done|].
    pose proof (Z.div_lt_upper_bound (0 - Z.of_nat (length words) - B - 1) (- B) 1
                  ltac:(lia) ltac:(lia)). lia.
  - intros HB HW Hne. unfold get_batches. rewrite range_steps by done.
    destruct words as [|x words]; [done|].
    assert (∃ n, chunk_count (Z.of_nat (length (x :: words))) B = S n) as [n ->].
    { unfold chunk_count. exists (Z.to_nat ((Z.of_nat (length (x :: words)) + B - 1) / B) - 1).
      pose proof (Z.div_le_lower_bound (Z.of_nat (length (x :: words)) + B - 1) B 1
                    ltac:(lia) ltac:(simpl length; lia)). lia. }
    simpl seq. rewrite fmap_cons. simpl batches_of.
    replace (py_slice (x :: words) (Z.of_nat 0 * B) (Z.of_nat 0 * B + B))
      with (x :: take (Z.to_nat B - 1) words).
    2:{ replace (Z.of_nat 0 * B)%Z with (Z.of_nat 0) by lia.
        replace (Z.of_nat 0 + B)%Z with (Z.of_nat (Z.to_nat B)) by lia.
        rewrite py_slice_take_drop. simpl.
        by replace (Z.to_nat B - 0) with (S (Z.to_nat B - 1)) by lia. }
    unfold make_batch. simpl. unfold get_target, randint.
    by rewrite decide_False by lia.
Qed.

(** ** [create_lookup_tables]: the order of the indices *)

Lemma occurrences_elem (w : string) (words : list string) :
  0 < occurrences w words → w ∈ words.
Proof.
  intros Hpos. destruct (decide (w ∈ words)) as [|Hout]; [done|].
  rewrite (occurrences_absent words w Hout) in Hpos. lia.
Qed.

Lemma sorted_vocab_index (words : list string) (w : string) :
  w ∈ words →
  ∃ i, vocab_to_int_of (sorted_vocab words) !! w = Some i
       ∧ sorted_vocab words !! i = Some (w, occurrences w words).
Proof.
  intros [i Hi]%sorted_vocab_keys%list_elem_of_lookup_1. exists i. split.
  - apply vocab_to_int_of_lookup; [apply sorted_vocab_NoDup|done].
  - by apply sorted_vocab_lookup_count.
Qed.

(** X7. A word that occurs strictly more often than another one gets a
    strictly smaller index in [vocab_to_int]. *)
Theorem more_frequent_smaller_index (words : list string) (w1 w2 : string)
    (Hin : w2 ∈ words)
    (Hcount : occurrences w2 words < occurrences w1 words) :
  ∃ vocab_to_int int_to_vocab i1 i2,
    create_lookup_tables words = Ok (vocab_to_int, int_to_vocab)
    ∧ vocab_to_int !! w1 = Some i1 ∧ vocab_to_int !! w2 = Some i2 ∧ i1 < i2.
Proof.
  destruct (sorted_vocab_index words w1) as (i1 & Hv1 & Hs1).
  { apply occurrences_elem. lia. }
  destruct (sorted_vocab_index words w2 Hin) as (i2 & Hv2 & Hs2).
  eexists _, _, i1, i2. split; [reflexivity|]. fold (sorted_vocab words).
  split_and!; [done..|].
  destruct (decide (i1 < i2)) as [|Hge]; [done|].
  pose proof (sorted_lookup_ge _ i2 i1 _ _ (most_common_sorted (Counter words))
                ltac:(lia) Hs2 Hs1) as Hle.
  simpl in Hle. lia.
Qed.

Lemma more_frequent_smaller_index_witness :
  ∃ vocab_to_int int_to_vocab i1 i2,
    create_lookup_tables ["b"; "a"; "c"; "a"]%string = Ok (vocab_to_int, int_to_vocab)
    ∧ vocab_to_int !! "a"%string = Some i1
    ∧ vocab_to_int !! "b"%string = Some i2 ∧ i1 < i2.
Proof.
  apply (more_frequent_smaller_index ["b"; "a"; "c"; "a"]%string "a"%string "b"%string).
  - apply list_elem_of_here.
  - vm_compute. lia.
Defined.

(** The keys of a counter stay in place when more words are counted. *)
Lemma Counter_keys_prefix (l1 l2 : list string) :
  ∃ ext, (Counter (l1 ++ l2)).*1 = (Counter l1).*1 ++ ext.
Proof.
  induction l2 as [|w l2 [ext IH]] using rev_ind.
  - exists []. by rewrite !app_nil_r.
  - rewrite app_assoc. unfold Counter in *. rewrite foldl_snoc, counter_add_keys, IH.
    case_decide; [by exists ext|]. exists (ext ++ [w]). by rewrite app_assoc.
Qed.

Lemma Counter_keys_before (words : list string) (w1 w2 : string) :
  first_occurs_before w1 w2 words → w2 ∈ words →
  before w1 w2 (Counter words).*1.
Proof.
  intros (k & Hw1 & Hw2) Hin.
  destruct (Counter_keys_prefix (take k words) (drop k words)) as [ext Hext].
  rewrite take_drop in Hext.
  destruct (Counter_spec (take k words)) as (_ & _ & Hdom1 & _).
  destruct (Counter_spec words) as (_ & _ & Hdom & _).
  apply Hdom1, list_elem_of_split in Hw1 as (p1 & p2 & Hp).
  exists p1, (p2 ++ ext). split.
  - by rewrite Hext, Hp, <-app_assoc.
  - apply Hdom in Hin. rewrite Hext, elem_of_app in Hin.
    destruct Hin as [Hin|Hin]; [by apply Hdom1 in Hin|].
    apply elem_of_app. by right.
Qed.

Lemma before_fmap_fst (l : list (string * nat)) (k1 k2 : string) :
  before k1 k2 l.*1 → ∃ n1 n2, before (k1, n1) (k2, n2) l.
Proof.
  intros (p1 & p2 & Hl & Hk2).
  apply fmap_app_inv in Hl as (l1 & l2' & -> & Hl2 & ->).
  symmetry in Hl2. apply fmap_cons_inv in Hl2 as ([k n1] & l2 & Hk1 & -> & ->).
  simpl in Hk1. subst k.
  apply list_elem_of_fmap in Hk2 as ([k n2] & -> & Hb).
  exists n1, n2, l1, l2. by split.
Qed.

Lemma before_cons {A} (a b x : A) (l : list A) : before a b l → before a b (x :: l).
Proof.
  intros (l1 & l2 & -> & Hb). by exists (x :: l1), l2.
Qed.

Lemma insert_desc_before (x a b : string * nat) (l : list (string * nat)) :
  before a b l → before a b (insert_desc x l).
Proof.
  induction l as [|y l IH]; intros Hab; simpl.
  - destruct Hab as ([|??] & ? & [=] & _).
  - case_decide; [|by apply before_cons].
    destruct Hab as ([|z l1] & l2 & [= -> ->] & Hb).
    + exists [], (insert_desc x l2). split; [done|].
      rewrite insert_desc_Permutation. by apply list_elem_of_further.
    + apply before_cons, IH. by exists l1, l2.
Qed.

Lemma insert_desc_first (x b : string * nat) (l : list (string * nat)) :
  b ∈ l → ¬ x.2 < b.2 → before x b (insert_desc x l).
Proof.
  induction l as [|y l IH]; intros Hb Hxb; simpl.
  - by apply elem_of_nil in Hb.
  - case_decide as Hxy.
    + apply before_cons, IH; [|done].
      apply elem_of_cons in Hb as [->|Hb]; [lia|done].
    + by exists [], (y :: l).
Qed.

(** [most_common] is stable: a pair that stands before another one and
    does not have the smaller count still stands before it. *)
Lemma most_common_stable (a b : string * nat) (c : list (string * nat)) :
  before a b c → ¬ a.2 < b.2 → before a b (most_common c).
Proof.
  induction c as [|x c IH]; intros Hab Hcount; simpl.
  - destruct Hab as ([|??] & ? & [=] & _).
  - destruct Hab as ([|z l1] & l2 & [= -> ->] & Hb).
    + apply insert_desc_first; [|done]. by rewrite most_common_Permutation.
    + apply insert_desc_before, IH; [|done]. by exists l1, l2.
Qed.

Lemma before_lookup {A} (a b : A) (l : list A) :
  before a b l → ∃ i j, i < j ∧ l !! i = Some a ∧ l !! j = Some b.
Proof.
  intros (l1 & l2 & -> & [k Hk]%list_elem_of_lookup_1).
  exists (length l1), (length l1 + S k). split_and!; [lia| |].
  - by rewrite list_lookup_middle.
  - rewrite lookup_app_r by lia.
    by replace (length l1 + S k - length l1) with (S k) by lia.
Qed.

(** X8. Ties are broken by first occurrence: of two words with the same
    number of occurrences, the one that appears first in the token list
    gets the smaller index in [vocab_to_int]. *)
Theorem equal_count_first_occurrence (words : list string) (w1 w2 : string)
    (Hin : w2 ∈ words)
    (Hfirst : first_occurs_before w1 w2 words)
    (Hcount : occurrences w1 words = occurrences w2 words) :
  ∃ vocab_to_int int_to_vocab i1 i2,
    create_lookup_tables words = Ok (vocab_to_int, int_to_vocab)
    ∧ vocab_to_int !! w1 = Some i1 ∧ vocab_to_int !! w2 = Some i2 ∧ i1 < i2.
Proof.
  destruct (before_fmap_fst _ _ _ (Counter_keys_before words w1 w2 Hfirst Hin))
    as (n1 & n2 & Hbefore).
  assert (n1 = occurrences w1 words ∧ n2 = occurrences w2 words) as [-> ->].
  { destruct Hbefore as (l1 & l2 & Hc & Hb). split.
    - eapply Counter_elem. rewrite Hc. apply elem_of_app. right. apply list_elem_of_here.
    - eapply Counter_elem. rewrite Hc. apply elem_of_app. right.
      by apply list_elem_of_further. }
  apply most_common_stable in Hbefore; [|simpl; lia].
  apply before_lookup in Hbefore as (i1 & i2 & Hlt & H1 & H2).
  fold (sorted_vocab words) in H1, H2.
  pose proof (sorted_vocab_NoDup words) as Hnd.
  eexists _, _, i1, i2. split; [reflexivity|]. fold (sorted_vocab words).
  split_and!; [| |done].
  - apply vocab_to_int_of_lookup; [done|]. by rewrite list_lookup_fmap, H1.
  - apply vocab_to_int_of_lookup; [done|]. by rewrite list_lookup_fmap, H2.
Qed.

Lemma equal_count_first_occurrence_witness :
  ∃ vocab_to_int int_to_vocab i1 i2,
    create_lookup_tables ["b"; "a"; "c"; "a"]%string = Ok (vocab_to_int, int_to_vocab)
    ∧ vocab_to_int !! "b"%string = Some i1
    ∧ vocab_to_int !! "c"%string = Some i2 ∧ i1 < i2.
Proof.
  apply (equal_count_first_occurrence ["b"; "a"; "c"; "a"]%string "b"%string "c"%string).
  - do 2 apply list_elem_of_further. apply list_elem_of_here.
  - exists 1. simpl. split; [apply list_elem_of_here|].
    by intros [=]%list_elem_of_singleton.
  - reflexivity.
Defined.

(** ** [subsample_words]: what it returns and when it fails *)

Lemma items_get_Ok {V} (d : list (string * V)) (k : string) :
  k ∈ d.*1 → ∃ v, items_get d k = Ok v.
Proof.
  induction d as [|[k' v] d IH]; csimpl; intros Hk.
  - by apply elem_of_nil in Hk.
  - case_decide; [by eexists|]. apply IH.
    apply elem_of_cons in Hk as [?|?]; [congruence|done].
Qed.

Lemma items_get_KeyError {V} (d : list (string * V)) (k : string) (e : exn) :
  items_get d k = Raise e → e = KeyError ∧ k ∉ d.*1.
Proof.
  induction d as [|[k' v] d IH]; csimpl.
  - intros [= <-]. split; [done|]. apply not_elem_of_nil.
  - case_decide as Hk; [done|]. intros [-> Hout]%IH. split; [done|].
    apply not_elem_of_cons. split; [congruence|done].
Qed.

(** The tokens kept by the comprehension form a sublist of the tokens,
    and the output holds their codes, in order. *)
Lemma train_words_of_Ok (vocab_to_int : gmap string nat)
    (prob_discard : list (string * spec_float)) (g : rng) (pos : nat)
    (words : list string) (train_words : list nat) :
  train_words_of vocab_to_int prob_discard g pos words = Ok train_words →
  ∃ kept, kept `sublist_of` words
    ∧ Forall2 (λ w c, vocab_to_int !! w = Some c) kept train_words.
Proof.
  revert pos train_words. induction words as [|w words IH]; intros pos tw; simpl.
  - intros [= <-]. exists []. split; constructor.
  - destruct (items_get prob_discard w) as [p|e]; simpl; [|done].
    destruct (keeps _ p).
    + unfold dict_get. destruct (vocab_to_int !! w) as [code|] eqn:Hcode; simpl; [|done].
      destruct (train_words_of _ _ _ (S pos) words) as [codes|e] eqn:Hrest;
        simpl; [|done].
      intros [= <-]. destruct (IH _ _ Hrest) as (kept & Hsub & Hcodes).
      exists (w :: kept). split; [by apply sublist_skip|by constructor].
    + intros Hrest. destruct (IH _ _ Hrest) as (kept & Hsub & Hcodes).
      exists kept. split; [by apply sublist_cons|done].
Qed.

(** The comprehension raises nothing but [KeyError], and only for a
    token that is missing from one of the two dicts it reads. *)
Lemma train_words_of_Raise (vocab_to_int : gmap string nat)
    (prob_discard : list (string * spec_float)) (g : rng) (pos : nat)
    (words : list string) (e : exn) :
  train_words_of vocab_to_int prob_discard g pos words = Raise e →
  e = KeyError
  ∧ ∃ w, w ∈ words ∧ (w ∉ prob_discard.*1 ∨ vocab_to_int !! w = None).
Proof.
  revert pos. induction words as [|w words IH]; intros pos; simpl; [done|].
  destruct (items_get prob_discard w) as [p|e'] eqn:Hp; simpl.
  - assert (train_words_of vocab_to_int prob_discard g (S pos) words = Raise e →
            e = KeyError ∧ ∃ w0, w0 ∈ w :: words
              ∧ (w0 ∉ prob_discard.*1 ∨ vocab_to_int !! w0 = None)) as Hrest.
    { intros (-> & w0 & Hw0 & Hmiss)%IH. split; [done|].
      exists w0. split; [by apply list_elem_of_further|done]. }
    destruct (keeps _ p); [|done].
    unfold dict_get. destruct (vocab_to_int !! w) as [code|] eqn:Hcode; simpl.
    + destruct (train_words_of _ _ _ (S pos) words) as [codes|e''] eqn:Htw;
        simpl; [done|].
      intros [= <-]. by apply Hrest.
    + intros [= <-]. split; [done|]. exists w. split; [apply list_elem_of_here|by right].
  - intros [= <-]. apply items_get_KeyError in Hp as [-> Hout]. split; [done|].
    exists w. split; [apply list_elem_of_here|by left].
Qed.

(** The keys of the dict of discard probabilities are the words. *)
Lemma prob_discard_keys (words : list string) (threshold : spec_float) :
  (Z.of_nat (length words) < 2 ^ 63)%Z →
  ∃ freqs prob_discard,
    word_freqs words = Ok freqs
    ∧ prob_discard_of threshold freqs = Ok prob_discard
    ∧ (∀ w, w ∈ prob_discard.*1 ↔ w ∈ words)
    ∧ Forall2 (λ wf wp, wp.1 = wf.1
                 ∧ discard_probability threshold wf.2 = Ok wp.2
                 ∧ ∃ m e, wf.2 = S754_finite false m e) freqs prob_discard.
Proof.
  intros Hlen. destruct (word_freqs_spec words Hlen) as (freqs & Hfreqs & Hall).
  pose proof (word_freqs_nonzero words freqs Hlen Hfreqs) as Hnz.
  destruct (prob_discard_of_nonzero threshold freqs Hnz) as (pd & Hpd & Hall').
  exists freqs, pd. split_and!; [done..| |].
  - assert (pd.*1 = (Counter words).*1) as ->.
    { transitivity (freqs.*1).
      - clear -Hall'. induction Hall' as [|wf wp fs ps [Hw _] _ IH]; csimpl; [done|].
        by rewrite IH, Hw.
      - clear -Hall. induction Hall as [|wc wf c fs [Hw _] _ IH]; csimpl; [done|].
        by rewrite IH, Hw. }
    apply Counter_spec.
  - clear -Hall Hall'. revert pd Hall'.
    induction Hall as [|wc wf c fs (_ & _ & Hfin) _ IH]; intros pd Hall';
      inversion Hall' as [|? wp ? ps [Hw Hp] Hrest]; subst; constructor; auto.
Qed.

(** X9. [subsample_words] returns normally when every word of the list
    is a key of [vocab_to_int]; when it fails, it fails with [KeyError]
    and some word of the list is missing from [vocab_to_int]. *)
Theorem subsample_words_failure (words : list string)
    (vocab_to_int : gmap string nat) (threshold : spec_float) (g : rng) (pos : nat)
    (Hlen : (Z.of_nat (length words) < 2 ^ 63)%Z) :
  ((∀ w, w ∈ words → is_Some (vocab_to_int !! w)) →
     ∃ train_words freqs,
       subsample_words words vocab_to_int threshold g pos = Ok (train_words, freqs))
  ∧ (∀ e, subsample_words words vocab_to_int threshold g pos = Raise e →
       e = KeyError ∧ ∃ w, w ∈ words ∧ vocab_to_int !! w = None).
Proof.
  destruct (prob_discard_keys words threshold Hlen)
    as (freqs & pd & Hfreqs & Hpd & Hkeys & _).
  unfold subsample_words. rewrite Hfreqs. simpl. rewrite Hpd. simpl.
  destruct (train_words_of vocab_to_int pd g pos words) as [tw|e] eqn:Htw; simpl.
  - split; [by eexists _, _|done].
  - apply train_words_of_Raise in Htw as (-> & w & Hw & Hmiss).
    destruct Hmiss as [Hout|Hnone]; [by apply Hkeys in Hw|].
    split.
    + intros Hall. destruct (Hall w Hw) as [c Hc]. congruence.
    + intros e [= <-]. split; [done|]. by exists w.
Qed.

Lemma subsample_words_failure_witness :
  ((∀ w, w ∈ ["a"; "b"]%string → is_Some (({["a"%string := 0]} : gmap string nat) !! w)) →
     ∃ train_words freqs,
       subsample_words ["a"; "b"]%string {["a"%string := 0]} threshold_two (λ _, 0%Z) 0
       = Ok (train_words, freqs))
  ∧ (∀ e, subsample_words ["a"; "b"]%string {["a"%string := 0]} threshold_two
            (λ _, 0%Z) 0 = Raise e →
       e = KeyError
       ∧ ∃ w, w ∈ ["a"; "b"]%string
              ∧ ({["a"%string := 0]} : gmap string nat) !! w = None).
Proof.
  apply (subsample_words_failure ["a"; "b"]%string). simpl. lia.
Defined.

(** X10. The integer sequence returned by [subsample_words] is the list
    of the codes of a sublist of the tokens: order is preserved, nothing
    is added, and each emitted integer is the code that [vocab_to_int]
    holds for the token kept. *)
Theorem subsample_words_sublist (words : list string)
    (vocab_to_int : gmap string nat) (threshold : spec_float) (g : rng) (pos : nat)
    (train_words : list nat) (freqs : list (string * spec_float))
    (Hret : subsample_words words vocab_to_int threshold g pos = Ok (train_words, freqs)) :
  ∃ kept, kept `sublist_of` words
    ∧ Forall2 (λ w c, vocab_to_int !! w = Some c) kept train_words
    ∧ length train_words ≤ length words.
Proof.
  unfold subsample_words in Hret.
  destruct (word_freqs words) as [fs|]; simpl in Hret; [|done].
  destruct (prob_discard_of threshold fs) as [pd|]; simpl in Hret; [|done].
  destruct (train_words_of vocab_to_int pd g pos words) as [tw|] eqn:Htw;
    simpl in Hret; [|done].
  injection Hret as <- <-.
  destruct (train_words_of_Ok _ _ _ _ _ _ Htw) as (kept & Hsub & Hcodes).
  exists kept. split_and!; [done..|].
  rewrite <-(Forall2_length _ _ _ Hcodes). by apply sublist_length.
Qed.

Lemma subsample_words_sublist_witness :
  ∃ kept, kept `sublist_of` ["a"; "b"; "a"]%string
    ∧ Forall2 (λ w c, ({["a"%string := 0; "b"%string := 1]} : gmap string nat) !! w = Some c)
        kept [0; 1; 0]
    ∧ length [0; 1; 0] ≤ length ["a"; "b"; "a"]%string.
Proof.
  apply (subsample_words_sublist ["a"; "b"; "a"]%string
           {["a"%string := 0; "b"%string := 1]} threshold_two (λ _, 0%Z) 0 [0; 1; 0]
           [("a"%string, S754_finite false 6004799503160661 (-53));
            ("b"%string, S754_finite false 6004799503160661 (-54))]).
  vm_compute. reflexivity.
Defined.

(** ** The functions in sequence *)

Lemma subsample_words_with_tables (words : list string) (threshold : spec_float)
    (g : rng) (pos : nat) :
  (Z.of_nat (length words) < 2 ^ 63)%Z →
  ∃ train_words freqs kept,
    subsample_words words (vocab_to_int_of (sorted_vocab words)) threshold g pos
      = Ok (train_words, freqs)
    ∧ kept `sublist_of` words
    ∧ Forall2 (λ w c, vocab_to_int_of (sorted_vocab words) !! w = Some c)
        kept train_words.
Proof.
  intros Hlen.
  destruct (prob_discard_keys words threshold Hlen)
    as (freqs & pd & Hfreqs & Hpd & Hkeys & _).
  unfold subsample_words. rewrite Hfreqs. simpl. rewrite Hpd. simpl.
  destruct (train_words_of _ pd g pos words) as [tw|e] eqn:Htw; simpl.
  - destruct (train_words_of_Ok _ _ _ _ _ _ Htw) as (kept & Hsub & Hcodes).
    by exists tw, freqs, kept.
  - apply train_words_of_Raise in Htw as (_ & w & Hw & [Hout|Hnone]).
    + by apply Hkeys in Hw.
    + destruct (sorted_vocab_index words w Hw) as (i & Hi & _). congruence.
Qed.

Lemma sublist_elem_of {A} (l k : list A) (x : A) : l `sublist_of` k → x ∈ l → x ∈ k.
Proof.
  induction 1 as [|y l k _ IH|y l k _ IH]; intros Hx; [done| |].
  - apply elem_of_cons in Hx as [->|Hx]; [apply list_elem_of_here|].
    by apply list_elem_of_further, IH.
  - by apply list_elem_of_further, IH.
Qed.

Lemma vocabulary_codes (words kept : list string) (codes : list nat) :
  kept `sublist_of` words →
  Forall2 (λ w c, vocab_to_int_of (sorted_vocab words) !! w = Some c) kept codes →
  Forall (λ c, c < length (remove_dups words)
               ∧ ∃ w, w ∈ words ∧ int_to_vocab_of (sorted_vocab words) !! c = Some w)
    codes.
Proof.
  intros Hsub Hcodes. pose proof (sorted_vocab_NoDup words) as Hnd.
  apply (Forall2_Forall_r _ _ _ _ Hcodes), Forall_forall.
  intros w Hw c Hc. apply (tables_inverse _ _ _ Hnd) in Hc. split.
  - rewrite int_to_vocab_of_lookup in Hc. apply lookup_lt_Some in Hc.
    by rewrite length_fmap, sorted_vocab_length in Hc.
  - exists w. split; [by eapply sublist_elem_of|done].
Qed.

(** X11. With the tables of [create_lookup_tables] built from the same
    token list, [subsample_words] always returns normally, and every
    integer it emits is a valid index: it is below the number of
    distinct words and [int_to_vocab] decodes it to a word of the
    list. *)
Theorem subsample_words_after_lookup_tables (words : list string)
    (threshold : spec_float) (g : rng) (pos : nat)
    (Hlen : (Z.of_nat (length words) < 2 ^ 63)%Z) :
  ∃ vocab_to_int int_to_vocab train_words freqs,
    create_lookup_tables words = Ok (vocab_to_int, int_to_vocab)
    ∧ subsample_words words vocab_to_int threshold g pos = Ok (train_words, freqs)
    ∧ Forall (λ c, c < length (remove_dups words)
                   ∧ ∃ w, w ∈ words ∧ int_to_vocab !! c = Some w) train_words.
Proof.
  destruct (subsample_words_with_tables words threshold g pos Hlen)
    as (tw & freqs & kept & Hsub & Hkept & Hcodes).
  eexists _, _, tw, freqs. split; [reflexivity|]. fold (sorted_vocab words).
  split; [done|]. by eapply vocabulary_codes.
Qed.

Lemma subsample_words_after_lookup_tables_witness :
  ∃ vocab_to_int int_to_vocab train_words freqs,
    create_lookup_tables ["b"; "a"; "c"; "a"]%string = Ok (vocab_to_int, int_to_vocab)
    ∧ subsample_words ["b"; "a"; "c"; "a"]%string vocab_to_int threshold_two
        (λ n, Z.of_nat n) 0 = Ok (train_words, freqs)
    ∧ Forall (λ c, c < length (remove_dups ["b"; "a"; "c"; "a"]%string)
                   ∧ ∃ w, w ∈ ["b"; "a"; "c"; "a"]%string ∧ int_to_vocab !! c = Some w)
        train_words.
Proof.
  apply (subsample_words_after_lookup_tables ["b"; "a"; "c"; "a"]%string). simpl. lia.
Defined.

Lemma py_slice_elem_of {A} (l : list A) (a b : Z) (x : A) : x ∈ py_slice l a b → x ∈ l.
Proof.
  unfold py_slice. intros Hx.
  apply (elem_of_take_drop l (slice_bound (Z.of_nat (length l)) b - slice_bound (Z.of_nat (length l)) a)
           (slice_bound (Z.of_nat (length l)) a)).
  rewrite take_drop_commute.
  destruct (decide (slice_bound (Z.of_nat (length l)) a ≤ slice_bound (Z.of_nat (length l)) b)).
  - by replace (slice_bound (Z.of_nat (length l)) a
               + (slice_bound (Z.of_nat (length l)) b - slice_bound (Z.of_nat (length l)) a))
      with (slice_bound (Z.of_nat (length l)) b) by lia.
  - rewrite drop_ge in Hx; [by apply elem_of_nil in Hx|]. rewrite length_take. lia.
Qed.

Lemma get_batches_tokens (words : list Z) (B W : Z) (g : rng) (pos : nat) :
  (1 ≤ B)%Z → (1 ≤ W)%Z →
  ∃ bs, get_batches words B W g pos = Trace bs None
    ∧ Forall (λ b, Forall (λ x, x ∈ words) b.1 ∧ Forall (λ x, x ∈ words) b.2) bs.
Proof.
  intros HB HW. unfold get_batches. rewrite range_steps by done.
  destruct (batches_of_spec words B W g pos
              ((λ i : nat, Z.of_nat i * B)%Z <$>
                 seq 0 (chunk_count (Z.of_nat (length words)) B)) HW)
    as (bs & -> & Hbs).
  exists bs. split; [done|].
  apply (Forall2_Forall_r _ _ _ _ Hbs), Forall_forall.
  intros idx _ b (_ & Hins & Htgs). split.
  - eapply Forall_impl; [exact Hins|]. intros x. apply py_slice_elem_of.
  - eapply Forall_impl; [exact Htgs|]. intros x. apply py_slice_elem_of.
Qed.

(** X12. The whole preparation in sequence: the tables of
    [create_lookup_tables], the codes of [subsample_words] under them,
    and the batches of [get_batches] over these codes (for
    [batch_size ≥ 1] and [window_size ≥ 1]).  Nothing raises, and every
    input and every target of every batch is a valid vocabulary index:
    at least 0 and below the number of distinct words. *)
Theorem pipeline_indices_in_vocabulary (words : list string) (threshold : spec_float)
    (B W : Z) (g : rng) (pos pos' : nat)
    (Hlen : (Z.of_nat (length words) < 2 ^ 63)%Z)
    (HB : (1 ≤ B)%Z) (HW : (1 ≤ W)%Z) :
  ∃ vocab_to_int int_to_vocab train_words freqs batches,
    create_lookup_tables words = Ok (vocab_to_int, int_to_vocab)
    ∧ subsample_words words vocab_to_int threshold g pos = Ok (train_words, freqs)
    ∧ get_batches (Z.of_nat <$> train_words) B W g pos' = Trace batches None
    ∧ Forall (λ b,
        Forall (λ x, 0 ≤ x < Z.of_nat (length (remove_dups words)))%Z b.1
        ∧ Forall (λ x, 0 ≤ x < Z.of_nat (length (remove_dups words)))%Z b.2)
        batches.
Proof.
  destruct (subsample_words_with_tables words threshold g pos Hlen)
    as (tw & freqs & kept & Hsub & Hkept & Hcodes).
  destruct (get_batches_tokens (Z.of_nat <$> tw) B W g pos' HB HW) as (bs & Hbs & Htok).
  eexists _, _, tw, freqs, bs. split; [reflexivity|]. fold (sorted_vocab words).
  split_and!; [done..|].
  pose proof (vocabulary_codes words kept tw Hkept Hcodes) as Hvalid.
  rewrite Forall_forall in Hvalid.
  assert (∀ x, x ∈ Z.of_nat <$> tw →
            (0 ≤ x < Z.of_nat (length (remove_dups words)))%Z) as Hrange.
  { intros x (c & -> & Hc)%list_elem_of_fmap. destruct (Hvalid c Hc). lia. }
  eapply Forall_impl; [exact Htok|]. intros b [Hins Htgs]. split.
  - eapply Forall_impl; [exact Hins|]. done.
  - eapply Forall_impl; [exact Htgs|]. done.
Qed.

Lemma pipeline_indices_in_vocabulary_witness :
  ∃ vocab_to_int int_to_vocab train_words freqs batches,
    create_lookup_tables ["b"; "a"; "c"; "a"]%string = Ok (vocab_to_int, int_to_vocab)
    ∧ subsample_words ["b"; "a"; "c"; "a"]%string vocab_to_int threshold_two
        (λ n, Z.of_nat n) 0 = Ok (train_words, freqs)
    ∧ get_batches (Z.of_nat <$> train_words) 3 2 (λ n, Z.of_nat n) 4
      = Trace batches None
    ∧ Forall (λ b,
        Forall (λ x, 0 ≤ x < Z.of_nat (length (remove_dups ["b"; "a"; "c"; "a"]%string)))%Z b.1
        ∧ Forall (λ x, 0 ≤ x < Z.of_nat (length (remove_dups ["b"; "a"; "c"; "a"]%string)))%Z b.2)
        batches.
Proof.
  apply (pipeline_indices_in_vocabulary ["b"; "a"; "c"; "a"]%string threshold_two
           3 2 (λ n, Z.of_nat n) 0 4); simpl; lia.
Defined.

(** ** [cosine_similarity]: shape and failure *)

Lemma randint_n_draws (high size : Z) (g : rng) (pos : nat) :
  (0 ≤ size)%Z → (0 < high)%Z →
  randint_n 0 high size g pos
  = Ok ((λ i : nat, (g (pos + i)%nat mod high)%Z) <$> seq 0 (Z.to_nat size)).
Proof.
  intros Hsize Hhigh. unfold randint_n.
  rewrite decide_False, decide_True by lia.
  induction (seq 0 (Z.to_nat size)) as [|i l IH]; simpl; [done|].
  rewrite randint_from_zero by done. simpl. by rewrite IH.
Qed.

Lemma embedding_lookup_rows (weight : list (list spec_float)) (indices : list Z) :
  Forall (λ i, 0 ≤ i < Z.of_nat (length weight))%Z indices →
  ∃ vectors, embedding_lookup weight indices = Ok vectors
    ∧ Forall2 (λ i v, weight !! Z.to_nat i = Some v) indices vectors.
Proof.
  unfold embedding_lookup.
  induction 1 as [|i l Hi _ (vs & Hvs & Hall)]; simpl.
  - exists []. split; [done|constructor].
  - rewrite decide_True by lia.
    destruct (lookup_lt_is_Some_2 weight (Z.to_nat i)) as [row Hrow]; [lia|].
    rewrite Hrow. simpl. rewrite Hvs. simpl.
    exists (row :: vs). split; [done|by constructor].
Qed.

Lemma embedding_lookup_out_of_range (weight : list (list spec_float)) (indices : list Z) :
  Forall (λ i, 0 ≤ i)%Z indices →
  Exists (λ i, Z.of_nat (length weight) ≤ i)%Z indices →
  embedding_lookup weight indices = Raise IndexError.
Proof.
  unfold embedding_lookup. intros Hpos Hex.
  induction Hpos as [|i l Hi Hpos IH]; [by apply Exists_nil in Hex|]. simpl.
  rewrite decide_True by done.
  destruct (weight !! Z.to_nat i) as [row|] eqn:Hrow; simpl; [|done].
  apply Exists_cons in Hex as [Hout|Hex].
  - apply lookup_lt_Some in Hrow. lia.
  - by rewrite (IH Hex).
Qed.

(** X13. When the sampling window does not exceed the number of
    embedding rows ([0 < valid_window ≤ rows], [valid_size ≥ 0]),
    [cosine_similarity] returns normally; the sampled indices are the
    [valid_size] draws reduced modulo [valid_window], each in
    [[0, valid_window)], and the similarity matrix has [valid_size] rows
    with one entry per embedding row. *)
Theorem cosine_similarity_shape (weight : list (list spec_float))
    (valid_size valid_window : Z) (g : rng) (pos : nat)
    (Hsize : (0 ≤ valid_size)%Z)
    (Hwindow : (0 < valid_window ≤ Z.of_nat (length weight))%Z) :
  ∃ similarities,
    let valid_examples :=
      (λ i : nat, (g (pos + i)%nat mod valid_window)%Z) <$> seq 0 (Z.to_nat valid_size) in
    cosine_similarity weight valid_size valid_window g pos
      = Ok (valid_examples, similarities)
    ∧ Forall (λ i, 0 ≤ i < valid_window)%Z valid_examples
    ∧ length similarities = Z.to_nat valid_size
    ∧ Forall (λ sims, length sims = length weight) similarities.
Proof.
  set (draws := (λ i : nat, (g (pos + i)%nat mod valid_window)%Z) <$> seq 0 (Z.to_nat valid_size)).
  assert (Forall (λ i, 0 ≤ i < valid_window)%Z draws) as Hdraws.
  { apply Forall_fmap, Forall_forall. intros i _. simpl.
    apply Z.mod_pos_bound. lia. }
  destruct (embedding_lookup_rows weight draws) as (vs & Hvs & Hrows).
  { eapply Forall_impl; [exact Hdraws|]. simpl. intros; lia. }
  eexists. simpl. unfold cosine_similarity.
  rewrite randint_n_draws by lia. simpl. fold draws. rewrite Hvs. simpl.
  split_and!; [done|done| |].
  - unfold matmul_T, normalize_rows. rewrite !length_fmap.
    rewrite <-(Forall2_length _ _ _ Hrows). subst draws.
    by rewrite length_fmap, length_seq.
  - unfold matmul_T. apply Forall_fmap, Forall_forall. intros ra _. simpl.
    unfold normalize_rows. by rewrite !length_fmap.
Qed.

Lemma cosine_similarity_shape_witness :
  ∃ similarities,
    let valid_examples := (λ i : nat, (Z.of_nat (0 + i)%nat mod 2)%Z) <$> seq 0 (Z.to_nat 3) in
    cosine_similarity [[f32_one; f32_zero]; [f32_one; f32_one]] 3 2
      (λ n, Z.of_nat n) 0 = Ok (valid_examples, similarities)
    ∧ Forall (λ i, 0 ≤ i < 2)%Z valid_examples
    ∧ length similarities = Z.to_nat 3
    ∧ Forall (λ sims, length sims
                      = length [[f32_one; f32_zero]; [f32_one; f32_one]]) similarities.
Proof.
  apply (cosine_similarity_shape [[f32_one; f32_zero]; [f32_one; f32_one]] 3 2
           (λ n, Z.of_nat n) 0); simpl; lia.
Defined.

(** X14. When the sampling window is wider than the embedding, a draw
    can fall outside it: if one of the [valid_size] sampled indices is
    not below the number of embedding rows, the row lookup fails and
    [cosine_similarity] raises [IndexError]. *)
Theorem cosine_similarity_index_error (weight : list (list spec_float))
    (valid_size valid_window : Z) (g : rng) (pos : nat)
    (Hsize : (0 ≤ valid_size)%Z) (Hwindow : (0 < valid_window)%Z)
    (Hout : Exists (λ i : nat,
                      (Z.of_nat (length weight) ≤ g (pos + i)%nat mod valid_window)%Z)
              (seq 0 (Z.to_nat valid_size))) :
  cosine_similarity weight valid_size valid_window g pos = Raise IndexError.
Proof.
  unfold cosine_similarity. rewrite randint_n_draws by lia. simpl.
  rewrite embedding_lookup_out_of_range; [done| |].
  - apply Forall_fmap, Forall_forall. intros i _. simpl.
    apply Z.mod_pos_bound. lia.
  - by apply Exists_fmap.
Qed.

Lemma cosine_similarity_index_error_witness :
  cosine_similarity [[f32_one; f32_zero]; [f32_one; f32_one]] 2 100 (λ _, 7%Z) 0
  = Raise IndexError.
Proof.
  apply (cosine_similarity_index_error [[f32_one; f32_zero]; [f32_one; f32_one]]
           2 100 (λ _, 7%Z) 0); [lia|lia|].
  apply Exists_cons_hd. vm_compute. discriminate.
Defined.

(** ** [subsample_words]: a threshold that is not positive *)

Section rounding_sign.
Variables prec emax : Z.
Open Scope Z_scope.

(** Rounding keeps the sign it is given and never makes a NaN. *)
Lemma binary_round_aux_sign (sx : bool) (m e : Z) (l : location) :
  0 ≤ m → has_sign sx (binary_round_aux prec emax sx m e l).
Proof.
  intros Hm. unfold binary_round_aux.
  destruct (shr_fexp prec emax m e l) as [mrs1 e1] eqn:H1.
  destruct (shr_fexp_spec prec emax m e l Hm) as [Hm1 _]. rewrite H1 in Hm1.
  simpl in Hm1.
  assert (0 ≤ shr_m mrs1) as Hpos1.
  { rewrite Hm1. apply Z.div_pos; [lia|]. apply Z.pow_pos_nonneg; lia. }
  pose proof (round_nearest_even_bounds (shr_m mrs1) (loc_of_shr_record mrs1)) as Hr.
  set (m2 := round_nearest_even _ _) in *.
  destruct (shr_fexp prec emax m2 e1 loc_Exact) as [mrs2 e2] eqn:H2.
  destruct (shr_fexp_spec prec emax m2 e1 loc_Exact ltac:(lia)) as [Hm2 _].
  rewrite H2 in Hm2. simpl in Hm2.
  assert (0 ≤ shr_m mrs2) as Hpos2.
  { rewrite Hm2. apply Z.div_pos; [lia|]. apply Z.pow_pos_nonneg; lia. }
  destruct (shr_m mrs2); [done| |lia]. by case_match.
Qed.

(** A mantissa that is already at the exponent of its format is
    rounded to itself. *)
Lemma binary_round_aux_canonical (sx : bool) (m : positive) (e : Z) :
  fexp prec emax (Zpos (digits2_pos m) + e) ≤ e →
  e ≤ emax - prec →
  binary_round_aux prec emax sx (Zpos m) e loc_Exact = S754_finite sx m e.
Proof.
  intros Hcan Hmax.
  assert (shr_fexp prec emax (Zpos m) e loc_Exact
          = (shr_record_of_loc (Zpos m) loc_Exact, e)) as Hshr.
  { unfold shr_fexp, shr. simpl Zdigits2.
    by destruct (fexp prec emax (Zpos (digits2_pos m) + e) - e) eqn:Hn; [| lia |]. }
  unfold binary_round_aux. rewrite Hshr. simpl. rewrite Hshr. simpl.
  by rewrite (proj2 (Z.leb_le _ _)) by done.
Qed.

Lemma digits2_pos_iter_xO (m d : positive) :
  Zpos (digits2_pos (Pos.iter xO m d)) = Zpos (digits2_pos m) + Zpos d.
Proof.
  induction d as [|d IH] using Pos.peano_ind.
  - simpl. lia.
  - rewrite Pos.iter_succ. simpl digits2_pos. lia.
Qed.
End rounding_sign.

(** Every draw of [torch.rand] is below 1.0. *)
Lemma rand_below_one (raw : Z) : SFltb f32_one (rand raw) = false.
Proof.
  unfold rand, binary_normalize.
  pose proof (Z.mod_pos_bound raw (2 ^ 24) ltac:(done)) as Hmod.
  destruct (raw mod 2 ^ 24)%Z as [|m|m] eqn:Hm; [done| |lia].
  destruct (digits2_pos_bounds m) as [Hlo _].
  assert (Zpos (digits2_pos m) ≤ 24)%Z as Hd.
  { destruct (Z.le_gt_cases (Zpos (digits2_pos m)) 24) as [|Hgt]; [done|].
    assert (2 ^ 24 ≤ 2 ^ (Zpos (digits2_pos m) - 1))%Z
      by (apply Z.pow_le_mono_r; lia). lia. }
  unfold binary_round, shl_align.
  replace (fexp 24 128 (Zpos (digits2_pos m) + -24))
    with (Zpos (digits2_pos m) - 48)%Z by (unfold fexp, emin; lia).
  destruct (Zpos (digits2_pos m) - 48 - -24)%Z as [|d|d] eqn:Hshift; [|lia|].
  - rewrite binary_round_aux_canonical by (unfold fexp, emin; lia). done.
  - rewrite binary_round_aux_canonical.
    + unfold SFltb, SFcompare, f32_one.
      destruct (Z.compare_spec (-23) (Zpos (digits2_pos m) - 48)); [lia|lia|done].
    + rewrite digits2_pos_iter_xO. unfold fexp, emin. lia.
    + lia.
Qed.

Lemma f64_div_sign (sx : bool) (mx my : positive) (ex ey : Z) :
  has_sign sx (f64_div (S754_finite sx mx ex) (S754_finite false my ey)).
Proof.
  unfold f64_div, SFdiv, SFdiv_core_binary.
  set (s := (ex - ey - _)%Z). set (m' := match s with 0%Z => _ | _ => _ end).
  assert (0 ≤ m')%Z as Hm'.
  { subst m'. destruct s; [lia| |lia]. apply Z.shiftl_nonneg. lia. }
  destruct (Z.div_eucl m' (Zpos my)) as [q r] eqn:Hqr.
  assert (q = m' / Zpos my)%Z as -> by (unfold Z.div; by rewrite Hqr).
  rewrite xorb_false_r. apply binary_round_aux_sign. apply Z.div_pos; lia.
Qed.

Lemma f32_of_f64_sign (sx : bool) (x : spec_float) :
  has_sign sx x → has_sign sx (f32_of_f64 x).
Proof.
  destruct x as [s|s| |s m e]; simpl; try done. intros ->.
  unfold binary_round. destruct (shl_align _ _ _) as [mz ez].
  by apply binary_round_aux_sign.
Qed.

(** Against a positive finite frequency, a threshold that is not above
    zero gives a discard probability of 1.0, or a NaN. *)
Lemma discard_probability_not_positive (threshold : spec_float) (m : positive) (e : Z) :
  SFltb f32_zero threshold = false →
  ∃ p, discard_probability threshold (S754_finite false m e) = Ok p
       ∧ (p = f32_one ∨ p = S754_nan).
Proof.
  intros Hth. unfold discard_probability, float_div. simpl. eexists. split; [done|].
  destruct threshold as [s|[]| |[] mt et]; try done; try (by right); try (by left).
  pose proof (f32_of_f64_sign true _ (f64_div_sign true mt m et e)) as Hsign.
  destruct (f32_of_f64 _) as [s|s| |s m' e']; simpl in Hsign; try done; subst s.
  - by left.
  - by right.
  - by right.
Qed.

Lemma keeps_never (raw : Z) (p : spec_float) :
  p = f32_one ∨ p = S754_nan → keeps (rand raw) p = false.
Proof.
  intros [->| ->]; [apply rand_below_one|done].
Qed.

Lemma items_get_elem {V} (d : list (string * V)) (k : string) (v : V) :
  items_get d k = Ok v → (k, v) ∈ d.
Proof.
  induction d as [|[k' v'] d IH]; simpl; [done|].
  case_decide as Hk.
  - intros [= <-]. subst k'. apply list_elem_of_here.
  - intros Hv. by apply list_elem_of_further, IH.
Qed.

Lemma train_words_of_none_kept (vocab_to_int : gmap string nat)
    (prob_discard : list (string * spec_float)) (g : rng) (pos : nat)
    (words : list string) :
  (∀ w, w ∈ words → w ∈ prob_discard.*1) →
  Forall (λ wp, wp.2 = f32_one ∨ wp.2 = S754_nan) prob_discard →
  train_words_of vocab_to_int prob_discard g pos words = Ok [].
Proof.
  intros Hkeys Hprob. revert pos.
  induction words as [|w words IH]; intros pos; simpl; [done|].
  destruct (items_get_Ok prob_discard w) as [p Hp].
  { apply Hkeys, list_elem_of_here. }
  rewrite Hp. simpl. rewrite keeps_never.
  - apply IH. intros w' Hw'. by apply Hkeys, list_elem_of_further.
  - rewrite Forall_forall in Hprob. by apply (Hprob (w, p)), items_get_elem.
Qed.

(** X15. A threshold that is not above zero (zero, negative, or a NaN)
    discards every token: [subsample_words] returns an empty list of
    codes, whatever the draws and whatever [vocab_to_int] holds. *)
Theorem subsample_words_threshold_not_positive (words : list string)
    (vocab_to_int : gmap string nat) (threshold : spec_float) (g : rng) (pos : nat)
    (Hlen : (Z.of_nat (length words) < 2 ^ 63)%Z)
    (Hthreshold : SFltb f32_zero threshold = false) :
  ∃ freqs, subsample_words words vocab_to_int threshold g pos = Ok ([], freqs).
Proof.
  destruct (prob_discard_keys words threshold Hlen)
    as (freqs & pd & Hfreqs & Hpd & Hkeys & Hall).
  exists freqs. unfold subsample_words. rewrite Hfreqs. simpl. rewrite Hpd. simpl.
  rewrite train_words_of_none_kept; [done|by intros w Hw; apply Hkeys|].
  apply (Forall2_Forall_r _ _ _ _ Hall), Forall_forall.
  intros wf _ wp (_ & Hp & m & e & Hfin). rewrite Hfin in Hp.
  destruct (discard_probability_not_positive threshold m e Hthreshold) as (p & Hp' & Hor).
  congruence.
Qed.

Lemma subsample_words_threshold_not_positive_witness :
  ∃ freqs,
    subsample_words ["a"; "b"; "a"]%string ∅ (S754_zero false) (λ n, Z.of_nat n) 0
    = Ok ([], freqs).
Proof.
  apply (subsample_words_threshold_not_positive ["a"; "b"; "a"]%string);
    [simpl; lia|reflexivity].
Defined.

(** * The batch of the trailing chunk *)

Lemma get_target_context {A} (words : list A) (idx : nat) (W raw : Z) :
  idx < length words → (1 ≤ W)%Z →
  get_target words (Z.of_nat idx) W raw
  = Ok (context_window words idx (window_of W raw)).
Proof.
  intros Hidx HW. pose proof (Z.mod_pos_bound raw W ltac:(lia)) as Hmod.
  rewrite get_target_take_drop by done. unfold context_window.
  set (R := window_of W raw).
  assert (1 ≤ R)%Z as HR by (subst R; unfold window_of; lia).
  replace (Z.max (Z.of_nat idx - R) 0) with (Z.of_nat (idx - Z.to_nat R)) by lia.
  replace (Z.of_nat idx + 1)%Z with (Z.of_nat (S idx)) by lia.
  replace (Z.of_nat idx + R + 1)%Z with (Z.of_nat (S idx + Z.to_nat R)) by lia.
  rewrite !py_slice_take_drop. do 3 f_equal. lia.
Qed.

Lemma pairs_fst_snd {A B} (x : A) (l : list B) :
  ((λ t, (x, t)) <$> l).*1 = replicate (length l) x ∧ ((λ t, (x, t)) <$> l).*2 = l.
Proof.
  induction l as [|y l [IH1 IH2]]; csimpl; [done|]. by rewrite IH1, IH2.
Qed.

(** The loop over the positions [k, k+1, ...] of a chunk appends to its
    accumulators the inputs and the targets of the pairs of these
    positions. *)
Lemma batch_loop_pairs (current_words l : list Z) (k : nat) (W : Z) (g : rng)
    (pos : nat) (inputs targets : list Z) :
  (1 ≤ W)%Z → k + length l ≤ length current_words →
  let pairs :=
    concat (imap (λ j x, (λ t, (x, t)) <$>
                    context_window current_words (k + j) (window_of W (g (pos + j)))) l) in
  batch_loop current_words (imap (λ j x, (k + j, x)) l) W g pos inputs targets
  = Ok ((inputs ++ pairs.*1, targets ++ pairs.*2), pos + length l).
Proof.
  intros HW. revert k pos inputs targets.
  induction l as [|x l IH]; intros k pos inputs targets Hk; simpl.
  - by rewrite !app_nil_r, Nat.add_0_r.
  - simpl in Hk. rewrite !Nat.add_0_r.
    rewrite get_target_context by (done || lia). simpl.
    rewrite (imap_ext _ (λ j y, (S k + j, y)) l)
      by (intros; simpl; f_equal; lia).
    rewrite IH by lia. rewrite !fmap_app.
    destruct (pairs_fst_snd x (context_window current_words k (window_of W (g pos))))
      as [-> ->].
    rewrite (imap_ext (_ ∘ S)
               (λ j y, (λ t, (y, t)) <$>
                  context_window current_words (S k + j) (window_of W (g (S pos + j)))) l).
    2:{ intros j y _. unfold compose. by rewrite !Nat.add_succ_comm. }
    rewrite !app_assoc. do 2 f_equal. lia.
Qed.

Lemma make_batch_pairs (chunk : list Z) (W : Z) (g : rng) (pos : nat) :
  (1 ≤ W)%Z →
  make_batch chunk W g pos
  = Ok (((chunk_pairs chunk W g pos).*1, (chunk_pairs chunk W g pos).*2),
        pos + length chunk).
Proof.
  intros HW. unfold make_batch, enumerate.
  exact (batch_loop_pairs chunk chunk 0 W g pos [] [] HW (le_n _)).
Qed.

(** The batches of a list of start indices followed by one more: the
    last batch holds the pairs of the last chunk, with the draws that
    follow those of all the chunks before it. *)
Lemma batches_of_last (words : list Z) (B W : Z) (g : rng) (pos : nat)
    (idxs : list Z) (idx : Z) :
  (1 ≤ W)%Z →
  let chunk := py_slice words idx (idx + B) in
  let pos1 := pos + sum_list_with (λ i, length (py_slice words i (i + B))) idxs in
  ∃ bs,
    batches_of words B W g pos (idxs ++ [idx])
    = Trace (bs ++ [((chunk_pairs chunk W g pos1).*1, (chunk_pairs chunk W g pos1).*2)])
        None
    ∧ length bs = length idxs.
Proof.
  intros HW. revert pos. induction idxs as [|i idxs IH]; intros pos; simpl.
  - rewrite make_batch_pairs by done. exists []. by rewrite Nat.add_0_r.
  - rewrite make_batch_pairs by done.
    destruct (IH (pos + length (py_slice words i (i + B)))) as (bs & -> & Hlen).
    eexists (_ :: bs). simpl. rewrite Hlen. split; [|done].
    by rewrite Nat.add_assoc.
Qed.

Lemma full_chunks_length (words : list Z) (B : Z) (q : nat) :
  (1 ≤ B)%Z → (Z.of_nat q * B ≤ Z.of_nat (length words))%Z →
  sum_list_with (λ i, length (py_slice words i (i + B)))
    ((λ i : nat, 0 + Z.of_nat i * B)%Z <$> seq 0 q)
  = Z.to_nat (Z.of_nat q * B).
Proof.
  intros HB. induction q as [|q IH]; intros Hq; [done|].
  rewrite seq_S, fmap_app, sum_list_with_app, IH by lia. simpl.
  replace (0 + Z.of_nat q * B)%Z with (Z.of_nat (q * Z.to_nat B)) by lia.
  replace (Z.of_nat (q * Z.to_nat B) + B)%Z
    with (Z.of_nat (q * Z.to_nat B + Z.to_nat B)) by lia.
  rewrite py_slice_take_drop, length_take, length_drop. nia.
Qed.

(** C3. When the length of the list is not a multiple of the batch
    size [B ≥ 1] (and the window size is valid, [W ≥ 1]), [get_batches]
    ends normally after yielding one batch per full chunk and then one
    more.  That last batch is made from the trailing chunk, which has
    [len mod B] tokens, at least one and fewer than [B]: it pairs each
    token of that chunk with the words of its context inside the chunk,
    the window sizes being drawn after those of the full chunks. *)
Theorem get_batches_keeps_partial_chunk (words : list Z) (B W : Z) (g : rng) (pos : nat)
    (HB : (1 ≤ B)%Z) (HW : (1 ≤ W)%Z)
    (Hmod : (Z.of_nat (length words) mod B ≠ 0)%Z) :
  let len := Z.of_nat (length words) in
  let start := Z.to_nat (len / B * B) in
  let chunk := drop start words in
  let pairs := chunk_pairs chunk W g (pos + start) in
  ∃ bs,
    get_batches words B W g pos = Trace (bs ++ [(pairs.*1, pairs.*2)]) None
    ∧ Z.of_nat (length bs) = (len / B)%Z
    ∧ Z.of_nat (length chunk) = (len mod B)%Z
    ∧ (0 < Z.of_nat (length chunk) < B)%Z.
Proof.
  intros len start chunk pairs. unfold get_batches. fold len.
  rewrite range_chunks by (subst len; lia).
  pose proof (Z.div_mod len B ltac:(lia)) as Hdm.
  pose proof (Z.mod_pos_bound len B ltac:(lia)) as Hr.
  pose proof (Z.div_pos len B ltac:(subst len; lia) ltac:(lia)) as Hq.
  destruct (batches_of_last words B W g pos
              ((λ i : nat, 0 + Z.of_nat i * B)%Z <$> seq 0 (Z.to_nat (len / B)))
              (len / B * B)%Z HW) as (bs & Hbs & Hlen).
  rewrite full_chunks_length in Hbs by (subst len; lia).
  rewrite Z2Nat.id in Hbs by lia. fold start in Hbs.
  replace (py_slice words (len / B * B) (len / B * B + B)) with chunk in Hbs.
  2:{ subst chunk start len. by rewrite py_slice_last_chunk. }
  assert (Z.of_nat (length chunk) = (len mod B)%Z) as Hchunk.
  { subst chunk start. rewrite length_drop. subst len. nia. }
  exists bs. split_and!.
  - done.
  - rewrite Hlen, length_fmap, length_seq. lia.
  - done.
  - fold len in Hmod. lia.
  - lia.
Qed.

Lemma get_batches_keeps_partial_chunk_witness :
  ∃ bs,
    get_batches [0; 1; 2; 3; 4]%Z 3 1 (λ n, Z.of_nat n) 0
    = Trace (bs ++ [([3; 4]%Z, [4; 3]%Z)]) None
    ∧ Z.of_nat (length bs) = (5 / 3)%Z
    ∧ Z.of_nat (length [3; 4]%Z) = (5 mod 3)%Z
    ∧ (0 < Z.of_nat (length [3; 4]%Z) < 3)%Z.
Proof.
  apply (get_batches_keeps_partial_chunk [0; 1; 2; 3; 4]%Z 3 1 (λ n, Z.of_nat n) 0);
    [lia|lia|discriminate].
Defined.

(** * Rounding to nearest *)

Section rounding_nearest.
Variables prec emax : Z.
Open Scope Z_scope.







End rounding_nearest.

(** ** [int_truediv]: how close the quotient is *)



(** ** The stored frequencies as rational numbers *)






(** * The discard probability of a token below the threshold *)

Section rounding_magnitude.
Variables prec emax : Z.
Open Scope Z_scope.





End rounding_magnitude.













